(** * color-ui: FocusLock and Modal lifecycle

    A shallow embedding of
      packages/react/src/utils/FocusLock.tsx
      packages/react/src/components/Modal/Modal.tsx
    together with the properties of the focus-containment and modal
    orchestration logic.

    DOM nodes are identified by natural numbers.  React refs, the document's
    active element and the mutable keyboard event are threaded explicitly. *)

From Stdlib Require Import ZArith Bool String.
From stdpp Require Import base option list strings gmap.

Local Open Scope Z_scope.

(** ** DOM values *)

Module Dom.

(** A DOM element, by identity. *)
Definition Element := nat.

(** The JavaScript values the code compares with [===]: an element,
    [null] (an unset ref, no active element) or [undefined] (an index
    outside a NodeList). *)
Inductive JsRef :=
| JsNull
| JsUndefined
| JsElem (e : Element).

(** [a === b] on references. *)
Definition strict_eq (a b : JsRef) : bool :=
  match a, b with
  | JsNull, JsNull => true
  | JsUndefined, JsUndefined => true
  | JsElem x, JsElem y => Nat.eqb x y
  | _, _ => false
  end.

(** A value of type [T | null], such as [ref.current] or
    [document.activeElement]. *)
Definition of_nullable (o : option Element) : JsRef :=
  match o with
  | Some e => JsElem e
  | None => JsNull
  end.

(** [list[i]] on a NodeList or array: [undefined] outside [0 .. length-1],
    in particular at index [-1]. *)
Definition item (l : list Element) (i : Z) : JsRef :=
  if i <? 0 then JsUndefined
  else match l !! Z.to_nat i with
       | Some e => JsElem e
       | None => JsUndefined
       end.

(** Truthiness of a reference: elements are truthy. *)
Definition truthy (r : JsRef) : bool :=
  match r with
  | JsElem _ => true
  | _ => false
  end.

(** [a ?? b]. *)
Definition nullish_or (a b : JsRef) : JsRef :=
  match a with
  | JsElem _ => a
  | _ => b
  end.

(** Storing a reference in a slot typed [HTMLElement | null]
    ([undefined] never reaches such a slot in this code). *)
Definition to_nullable (r : JsRef) : option Element :=
  match r with
  | JsElem e => Some e
  | _ => None
  end.

(** The part of the document the code reads and writes. *)
Record Document := mkDocument {
  (** the element that has focus; [None] when none has (the browser then
      reports the body) *)
  activeElement : option Element;
  (** [root.querySelectorAll(FOCUSABLE_ELEMENTS.join(", "))], in document
      order; the selector list itself is a constant of the library. *)
  querySelectorAll : Element -> list Element;
  (** whether [e.focus()] would give [e] the focus now: it is attached to
      the document, not disabled and not hidden *)
  canFocus : Element -> bool;
  (** [root.contains(e)] *)
  contains : Element -> Element -> bool
}.

(** The same document with another active element. *)
Definition setActive (a : option Element) (d : Document) : Document :=
  mkDocument a (querySelectorAll d) (canFocus d) (contains d).

(** A document in which every element can take focus and a root contains
    what the focusable query finds under it. *)
Definition page (a : option Element) (q : Element -> list Element)
  : Document :=
  mkDocument a q (fun _ => true)
    (fun r e => Nat.eqb e r || bool_decide (e ∈ q r)).

(** The subtree of [root] leaves the document: an active element inside it
    loses focus, and no element of it can take focus any more. *)
Definition removeSubtree (root : Element) (d : Document) : Document :=
  mkDocument
    (match activeElement d with
     | Some e => if contains d root e then None else Some e
     | None => None
     end)
    (querySelectorAll d)
    (fun e => canFocus d e && negb (contains d root e))
    (contains d).

(** One element becomes able or unable to take focus (an attribute or
    style change); the active element is left as it is. *)
Definition setCanFocus (e : Element) (can : bool) (d : Document)
  : Document :=
  mkDocument (activeElement d) (querySelectorAll d)
    (fun x => if Nat.eqb x e then can else canFocus d x) (contains d).

(** Where focus is after [x?.focus()]: on [x] if there is such an element
    and it can take focus, else where it was. *)
Definition after_focus_call (x : option Element) (d : Document)
  : option Element :=
  match x with
  | Some e => if canFocus d e then Some e else activeElement d
  | None => activeElement d
  end.

(** A keydown event; [preventDefault()] sets [defaultPrevented]. *)
Record KeyboardEvent := mkKeyboardEvent {
  key : string;
  shiftKey : bool;
  defaultPrevented : bool
}.

Definition keydown (k : string) (shift : bool) : KeyboardEvent :=
  mkKeyboardEvent k shift false.

End Dom.

Import Dom.

(** ** A small monad for handler bodies: state plus thrown errors *)

Module Js.

Inductive JsError := TypeError.

Inductive Completion (A : Type) :=
| Normal (a : A)
| Throw (e : JsError).
Arguments Normal {A} a.
Arguments Throw {A} e.

Definition M (S A : Type) : Type := S -> Completion A * S.

Definition ret {S A} (a : A) : M S A := fun s => (Normal a, s).

Definition bind {S A B} (m : M S A) (k : A -> M S B) : M S B :=
  fun s =>
    match m s with
    | (Normal a, s') => k a s'
    | (Throw e, s') => (Throw e, s')
    end.

Definition throw {S A} (e : JsError) : M S A := fun s => (Throw e, s).
Definition get {S} : M S S := fun s => (Normal s, s).
Definition modify {S} (f : S -> S) : M S unit := fun s => (Normal tt, f s).

Definition completes {A} (c : Completion A) : bool :=
  match c with
  | Normal _ => true
  | Throw _ => false
  end.

End Js.

Import Js.

Notation "'let!' x ':=' m 'in' k" := (Js.bind m (fun x => k))
  (at level 10, x name, m at level 100, k at level 200, only parsing).
Notation "'do!' m 'in' k" := (Js.bind m (fun _ => k))
  (at level 10, m at level 100, k at level 200, only parsing).

(** [x.focus()] and [x?.focus()], over any state that holds the document.
    A method call on [undefined] or [null] throws; the optional call skips
    it.  On an element, [focus()] makes it the document's active element if
    it can take focus, and does nothing otherwise: the cached focusable
    list, a caller's ref and the stored return node can all hold an element
    that was disabled, hidden or removed in the meantime. *)
Definition focusElement (e : Element) (d : Document) : Document :=
  if canFocus d e then setActive (Some e) d else d.

Definition method_focus {S} (on_document : (Document -> Document) -> S -> S)
    (x : JsRef) : M S unit :=
  match x with
  | JsElem e => modify (on_document (focusElement e))
  | _ => throw TypeError
  end.

Definition optional_focus {S} (on_document : (Document -> Document) -> S -> S)
    (x : JsRef) : M S unit :=
  match x with
  | JsElem e => modify (on_document (focusElement e))
  | _ => ret tt
  end.

(** ** FocusLock.tsx *)

Module FocusLock.

Definition RefId := nat.
Definition InstId := nat.

(** [FocusLockProps] without children and pass-through attributes.
    [isLocked] defaults to [true]; an absent boolean flag is falsy. *)
Record Props := mkProps {
  isLocked : option bool;
  autoFocusOnMount : option bool;
  returnFocusOnClose : option bool;
  initialFocusRef : option RefId;
  finalFocusRef : option RefId
}.

Definition isLocked_value (p : Props) : bool := default true (isLocked p).

(** Truthiness of an optional boolean prop. *)
Definition flag (b : option bool) : bool := default false b.

(** The three [useRef] cells of one instance. *)
Record Refs := mkRefs {
  rootNode : option Element;
  focusableItems : option (list Element);
  returnFocusNode : option Element
}.

(** *** The Tab handler (third effect) *)

(** What the keydown handler can touch: the document and the event. *)
Record HandlerState := mkHandlerState {
  hs_document : Document;
  hs_event : KeyboardEvent
}.

Definition hs_on_document (f : Document -> Document) (s : HandlerState)
  : HandlerState :=
  mkHandlerState (f (hs_document s)) (hs_event s).

(** [document.activeElement] *)
Definition getActiveElement : M HandlerState JsRef :=
  let! s := get in ret (of_nullable (activeElement (hs_document s))).

(** [event.preventDefault()] *)
Definition preventDefault : M HandlerState unit :=
  modify (fun s =>
    mkHandlerState (hs_document s)
      (mkKeyboardEvent (key (hs_event s)) (shiftKey (hs_event s)) true)).

(** [handleKeyPress], lines 70-100.  [locked] is the [isLocked] captured by
    the closure, [items] is [focusableItems.current] at the time of the
    event ([None] for [undefined]). *)
Definition handleKeyPress (locked : bool) (items : option (list Element))
  : M HandlerState unit :=
  match items with
  | None => ret tt
  | Some items =>
      let! s := get in
      let k := key (hs_event s) in
      let shift := shiftKey (hs_event s) in
      let length := Z.of_nat (List.length items) in
      let firstItem := item items 0 in
      let lastItem := item items (length - 1) in
      if locked && String.eqb k "Tab" then
        if length =? 1 then preventDefault
        else
          let! a := getActiveElement in
          if negb shift && strict_eq a lastItem then
            do! preventDefault in method_focus hs_on_document firstItem
          else
            let! a' := getActiveElement in
            if shift && strict_eq a' firstItem then
              do! preventDefault in method_focus hs_on_document lastItem
            else ret tt
      else ret tt
  end.

(** One keydown delivered to one handler, starting from a fresh event. *)
Definition press (locked : bool) (items : option (list Element))
    (k : string) (shift : bool) (d : Document)
  : Completion unit * HandlerState :=
  handleKeyPress locked items (mkHandlerState d (keydown k shift)).

(** The handler state before any handler has run. *)
Definition untouched (k : string) (shift : bool) (d : Document)
  : HandlerState :=
  mkHandlerState d (keydown k shift).

Definition prevented (r : Completion unit * HandlerState) : bool :=
  defaultPrevented (hs_event (snd r)).

Definition focused (r : Completion unit * HandlerState) : option Element :=
  activeElement (hs_document (snd r)).

Definition returned {S} (r : Completion unit * S) : bool :=
  completes (fst r).

(** *** Focusable items (first effect) and autofocus / return focus
    (second effect) *)

(** What the first two effects can touch: the document and the refs. *)
Record EffectState := mkEffectState {
  es_document : Document;
  es_refs : Refs
}.

Definition es_on_document (f : Document -> Document) (s : EffectState)
  : EffectState :=
  mkEffectState (f (es_document s)) (es_refs s).

(** [updateFocusableItems], lines 30-37. *)
Definition updateFocusableItems : M EffectState unit :=
  let! s := get in
  match rootNode (es_refs s) with
  | Some root =>
      modify (fun s =>
        mkEffectState (es_document s)
          (mkRefs (rootNode (es_refs s))
                  (Some (querySelectorAll (es_document s) root))
                  (returnFocusNode (es_refs s))))
  | None => ret tt
  end.

(** [returnFocusNode.current = v] *)
Definition set_returnFocusNode (v : option Element) : M EffectState unit :=
  modify (fun s =>
    mkEffectState (es_document s)
      (mkRefs (rootNode (es_refs s)) (focusableItems (es_refs s)) v)).

(** [ref?.current] for an optional ref object. *)
Definition optional_current (current : RefId -> option Element)
    (r : option RefId) : JsRef :=
  match r with
  | Some r => of_nullable (current r)
  | None => JsUndefined
  end.

(** Body of the second effect, lines 53-62.  [current] gives [.current]
    of the caller's ref objects. *)
Definition focusEffect (p : Props) (current : RefId -> option Element)
  : M EffectState unit :=
  if flag (autoFocusOnMount p) then
    let! s := get in
    do! set_returnFocusNode
          (to_nullable
             (nullish_or (optional_current current (finalFocusRef p))
                         (of_nullable (activeElement (es_document s))))) in
    match initialFocusRef p with
    | Some r => optional_focus es_on_document (of_nullable (current r))
    | None =>
        let! s := get in
        optional_focus es_on_document
          (match focusableItems (es_refs s) with
           | Some items => item items 0
           | None => JsUndefined
           end)
    end
  else ret tt.

(** Cleanup of the second effect, lines 63-65; [p] are the props of the
    render that created it. *)
Definition focusCleanup (p : Props) : M EffectState unit :=
  if flag (returnFocusOnClose p) then
    let! s := get in
    optional_focus es_on_document (of_nullable (returnFocusNode (es_refs s)))
  else ret tt.

(** The initial-focus target is missing: no ref object was passed, or the
    one passed holds no element. *)
Definition initial_target_missing (current : RefId -> option Element)
    (p : Props) : Prop :=
  match initialFocusRef p with
  | None => True
  | Some r => current r = None
  end.

(** Where focus is after [focus()] was called on element 0 of the
    focusable list, if there is one: on that element if it can take focus,
    unchanged otherwise and for an empty or absent list. *)
Definition first_or_unchanged (s : EffectState) : option Element :=
  after_focus_call (focusableItems (es_refs s) ≫= head) (es_document s).

Definition focus_after (r : Completion unit * EffectState) : option Element :=
  activeElement (es_document (snd r)).

(** Focus moved from outside the component (a click, default tabbing). *)
Definition focus_moved (a : option Element) (s : EffectState) : EffectState :=
  es_on_document (setActive a) s.

(** *** Mount, update and unmount

    The host keeps, per instance, the refs, the props of the last render and
    the cleanup closures of the effects; the window keeps the keydown
    listeners, and connected mutation observers watch their target. *)

(** A registered [handleKeyPress] closure: its identity, the instance whose
    [focusableItems] ref it reads, and the [isLocked] it captured. *)
Record Listener := mkListener {
  l_id : nat;
  l_owner : InstId;
  l_isLocked : bool
}.

(** A connected [MutationObserver] ([childList: true] on [o_target]); its
    callback is [updateFocusableItems] of [o_owner]. *)
Record Observer := mkObserver {
  o_id : nat;
  o_owner : InstId;
  o_target : Element
}.

Record Instance := mkInstance {
  inst_refs : Refs;
  inst_props : Props;
  inst_mounted : bool;
  (** the observer that the first effect's cleanup disconnects *)
  inst_observer : nat;
  (** the listener that the third effect's cleanup removes *)
  inst_listener : nat
}.

Record World := mkWorld {
  w_document : Document;
  (** [.current] of the caller's ref objects *)
  w_current : RefId -> option Element;
  w_listeners : list Listener;
  w_observers : list Observer;
  w_instances : gmap InstId Instance;
  (** source of fresh closure and observer identities *)
  w_next : nat;
  w_uncaught : list JsError
}.

Definition empty_world (d : Document) (current : RefId -> option Element)
  : World :=
  mkWorld d current [] [] ∅ 0%nat [].

Definition set_instance (i : InstId) (inst : Instance) (w : World) : World :=
  mkWorld (w_document w) (w_current w) (w_listeners w) (w_observers w)
    (<[i := inst]> (w_instances w)) (w_next w) (w_uncaught w).

(** Run an effect body or a mutation callback of instance [i]. *)
Definition run_effect (i : InstId) (m : M EffectState unit) (w : World)
  : World :=
  match w_instances w !! i with
  | None => w
  | Some inst =>
      let r := m (mkEffectState (w_document w) (inst_refs inst)) in
      mkWorld (es_document (snd r)) (w_current w) (w_listeners w)
        (w_observers w)
        (<[i := mkInstance (es_refs (snd r)) (inst_props inst)
                  (inst_mounted inst) (inst_observer inst)
                  (inst_listener inst)]> (w_instances w))
        (w_next w)
        (match fst r with
         | Normal _ => w_uncaught w
         | Throw e => w_uncaught w ++ [e]
         end)
  end.

(** First effect, lines 29-49: query once, create the observer and observe
    the root if there is one. *)
Definition observeEffect (i : InstId) (w : World) : World :=
  let w := run_effect i updateFocusableItems w in
  match w_instances w !! i with
  | None => w
  | Some inst =>
      let id := w_next w in
      mkWorld (w_document w) (w_current w) (w_listeners w)
        (match rootNode (inst_refs inst) with
         | Some root => w_observers w ++ [mkObserver id i root]
         | None => w_observers w
         end)
        (<[i := mkInstance (inst_refs inst) (inst_props inst)
                  (inst_mounted inst) id (inst_listener inst)]>
           (w_instances w))
        (S id) (w_uncaught w)
  end.

(** [observer.disconnect()], lines 46-48. *)
Definition observeCleanup (i : InstId) (w : World) : World :=
  match w_instances w !! i with
  | None => w
  | Some inst =>
      mkWorld (w_document w) (w_current w) (w_listeners w)
        (filter (fun o => o_id o ≠ inst_observer inst) (w_observers w))
        (w_instances w) (w_next w) (w_uncaught w)
  end.

(** Third effect, line 102: a new closure is added to the window. *)
Definition keydownEffect (i : InstId) (w : World) : World :=
  match w_instances w !! i with
  | None => w
  | Some inst =>
      let id := w_next w in
      mkWorld (w_document w) (w_current w)
        (w_listeners w ++ [mkListener id i (isLocked_value (inst_props inst))])
        (w_observers w)
        (<[i := mkInstance (inst_refs inst) (inst_props inst)
                  (inst_mounted inst) (inst_observer inst) id]>
           (w_instances w))
        (S id) (w_uncaught w)
  end.

(** [window.removeEventListener("keydown", handleKeyPress)], lines 103-105:
    removes the closure this run of the effect added. *)
Definition keydownCleanup (i : InstId) (w : World) : World :=
  match w_instances w !! i with
  | None => w
  | Some inst =>
      mkWorld (w_document w) (w_current w)
        (filter (fun l => l_id l ≠ inst_listener inst) (w_listeners w))
        (w_observers w) (w_instances w) (w_next w) (w_uncaught w)
  end.

Definition set_props (i : InstId) (p : Props) (w : World) : World :=
  match w_instances w !! i with
  | None => w
  | Some inst =>
      set_instance i
        (mkInstance (inst_refs inst) p (inst_mounted inst)
           (inst_observer inst) (inst_listener inst)) w
  end.

(** The instance leaves the tree: its root ref is reset. *)
Definition retire (i : InstId) (w : World) : World :=
  match w_instances w !! i with
  | None => w
  | Some inst =>
      set_instance i
        (mkInstance
           (mkRefs None (focusableItems (inst_refs inst))
              (returnFocusNode (inst_refs inst)))
           (inst_props inst) false (inst_observer inst) (inst_listener inst))
        w
  end.

(** First render and commit: the root [div] is attached to [rootNode], then
    the three effects run in source order. *)
Definition mount (i : InstId) (root : Element) (p : Props) (w : World)
  : World :=
  match w_instances w !! i with
  | Some _ => w
  | None =>
      let w := set_instance i
                 (mkInstance (mkRefs (Some root) None None) p true 0%nat 0%nat)
                 w in
      let w := observeEffect i w in
      let w := run_effect i (focusEffect p (w_current w)) w in
      keydownEffect i w
  end.

(** Dependency lists of the second and third effect. *)
Definition focus_deps_changed (p q : Props) : bool :=
  negb (bool_decide (autoFocusOnMount p = autoFocusOnMount q
                     ∧ finalFocusRef p = finalFocusRef q
                     ∧ initialFocusRef p = initialFocusRef q
                     ∧ returnFocusOnClose p = returnFocusOnClose q)).

Definition keydown_deps_changed (p q : Props) : bool :=
  negb (Bool.eqb (isLocked_value p) (isLocked_value q)).

(** A later render with props [q]: cleanups of the effects whose
    dependencies changed run first (with the old closures), then those
    effects run again. *)
Definition rerender (i : InstId) (q : Props) (w : World) : World :=
  match w_instances w !! i with
  | None => w
  | Some inst =>
      if inst_mounted inst then
        let p := inst_props inst in
        let w := if focus_deps_changed p q
                 then run_effect i (focusCleanup p) w else w in
        let w := if keydown_deps_changed p q
                 then keydownCleanup i w else w in
        let w := set_props i q w in
        let w := if focus_deps_changed p q
                 then run_effect i (focusEffect q (w_current w)) w else w in
        if keydown_deps_changed p q then keydownEffect i w else w
      else w
  end.

(** The commit that removes the instance takes its root [div], with all
    that is under it, out of the document. *)
Definition detachRoot (i : InstId) (w : World) : World :=
  match w_instances w !! i with
  | None => w
  | Some inst =>
      match rootNode (inst_refs inst) with
      | None => w
      | Some root =>
          mkWorld (removeSubtree root (w_document w)) (w_current w)
            (w_listeners w) (w_observers w) (w_instances w) (w_next w)
            (w_uncaught w)
      end
  end.

(** Unmount: the root is removed from the document, then every effect's
    cleanup runs, in source order. *)
Definition unmount (i : InstId) (w : World) : World :=
  match w_instances w !! i with
  | None => w
  | Some inst =>
      if inst_mounted inst then
        let w := detachRoot i w in
        let w := observeCleanup i w in
        let w := run_effect i (focusCleanup (inst_props inst)) w in
        let w := keydownCleanup i w in
        retire i w
      else w
  end.

(** One keydown on the window: the registered closures run in registration
    order on the same event object; a closure reads its instance's
    [focusableItems.current] when it runs. *)
Definition deliver (w : World) (acc : HandlerState * list JsError)
    (l : Listener) : HandlerState * list JsError :=
  let items :=
    inst ← w_instances w !! l_owner l; focusableItems (inst_refs inst) in
  let r := handleKeyPress (l_isLocked l) items (fst acc) in
  (snd r, match fst r with
          | Normal _ => snd acc
          | Throw e => snd acc ++ [e]
          end).

Definition dispatch_to (ls : list Listener) (k : string) (shift : bool)
    (w : World) : World * KeyboardEvent :=
  let r := foldl (deliver w)
             (mkHandlerState (w_document w) (keydown k shift), w_uncaught w)
             ls in
  (mkWorld (hs_document (fst r)) (w_current w) (w_listeners w)
     (w_observers w) (w_instances w) (w_next w) (snd r),
   hs_event (fst r)).

Definition dispatchKeydown (k : string) (shift : bool) (w : World)
  : World * KeyboardEvent :=
  dispatch_to (w_listeners w) k shift w.

(** The subtree under [root] changes so that the focusable query now gives
    [items].  Observers of [root] are notified only when the change is to
    its direct child list. *)
Definition domChange (root : Element) (items : list Element)
    (childList : bool) (w : World) : World :=
  let d := mkDocument (activeElement (w_document w))
             (fun r => if Nat.eqb r root then items
                       else querySelectorAll (w_document w) r)
             (canFocus (w_document w)) (contains (w_document w)) in
  let w := mkWorld d (w_current w) (w_listeners w) (w_observers w)
             (w_instances w) (w_next w) (w_uncaught w) in
  if childList then
    foldl (fun w o =>
             if Nat.eqb (o_target o) root
             then run_effect (o_owner o) updateFocusableItems w else w)
          w (w_observers w)
  else w.

(** Focus moved by the user (click, default tabbing) to an element that
    can take it, or lost. *)
Definition userFocus (a : option Element) (w : World) : World :=
  mkWorld (match a with
           | Some e => focusElement e (w_document w)
           | None => setActive None (w_document w)
           end) (w_current w)
    (w_listeners w) (w_observers w) (w_instances w) (w_next w)
    (w_uncaught w).

Inductive Event :=
| Mount (i : InstId) (root : Element) (p : Props)
| Rerender (i : InstId) (p : Props)
| Unmount (i : InstId)
| KeyDown (k : string) (shift : bool)
| DomChange (root : Element) (items : list Element) (childList : bool)
| UserFocus (a : option Element)
| CanFocus (e : Element) (can : bool).

Definition step (w : World) (e : Event) : World :=
  match e with
  | Mount i root p => mount i root p w
  | Rerender i p => rerender i p w
  | Unmount i => unmount i w
  | KeyDown k shift => fst (dispatchKeydown k shift w)
  | DomChange root items childList => domChange root items childList w
  | UserFocus a => userFocus a w
  | CanFocus e can =>
      mkWorld (setCanFocus e can (w_document w)) (w_current w)
        (w_listeners w) (w_observers w) (w_instances w) (w_next w)
        (w_uncaught w)
  end.

Definition run (w : World) (es : list Event) : World := foldl step w es.

(** *** Ownership of listeners and observers *)

(** What the host remembers of an instance's registrations: whether it is
    mounted, and the observer and listener its cleanups release. *)
Definition handles (inst : Instance) : bool * nat * nat :=
  (inst_mounted inst, inst_observer inst, inst_listener inst).

Definition registry (w : World) : gmap InstId (bool * nat * nat) :=
  handles <$> w_instances w.

(** Every registered listener is the one its mounted owner will remove. *)
Definition listeners_current (w : World) : Prop :=
  ∀ l, l ∈ w_listeners w →
       ∃ o, registry w !! l_owner l = Some (true, o, l_id l).

(** Every connected observer is the one its mounted owner will disconnect. *)
Definition observers_current (w : World) : Prop :=
  ∀ o, o ∈ w_observers w →
       ∃ l, registry w !! o_owner o = Some (true, o_id o, l).

Definition consistent (w : World) : Prop :=
  listeners_current w ∧ observers_current w.

Definition no_listener_of (i : InstId) (w : World) : Prop :=
  ∀ l, l ∈ w_listeners w → l_owner l ≠ i.

Definition no_observer_of (i : InstId) (w : World) : Prop :=
  ∀ o, o ∈ w_observers w → o_owner o ≠ i.

Definition mounted_if_present (i : InstId) (w : World) : Prop :=
  ∀ inst, w_instances w !! i = Some inst → inst_mounted inst = true.

(** The world in which instance [i] never existed. *)
Definition forget (i : InstId) (w : World) : World :=
  mkWorld (w_document w) (w_current w) (w_listeners w) (w_observers w)
    (delete i (w_instances w)) (w_next w) (w_uncaught w).

(** What a keydown leaves behind that anyone can observe: the document's
    active element, the event, and the errors reported. *)
Definition outcome (r : World * KeyboardEvent)
  : option Element * KeyboardEvent * list JsError :=
  (activeElement (w_document (fst r)), snd r, w_uncaught (fst r)).

End FocusLock.

(** ** The mount-transition hook *)

Module MountTransition.

(** Modelled from the spec: the hook [useMountTransition]
    (hooks/useMountTransition.hook) is imported by Modal.tsx but its source
    is not among the files at hand.  The three states of the spec's state
    machine: content not in the tree, content in the tree and entering,
    content in the tree with the opened transition state. *)
Inductive TransitionState := Closed | Entering | Open.

(** Modelled from the spec: the hook's state is the transition state, the
    last [isOpen] intent it was given, and the time in milliseconds left on
    its timer, if one is running. *)
Record State := mkState {
  phase : TransitionState;
  intent : bool;
  pending : option Z
}.

(** Modelled from the spec: a freshly created hook with [isOpen = false]. *)
Definition initial : State := mkState Closed false None.

(** Modelled from the spec: when the timer elapses the instance reaches
    Open if the intent is open (Entering to Open), and Closed otherwise
    (content detaches). *)
Definition fire (s : State) : State :=
  mkState (if intent s then Open else Closed) (intent s) None.

(** Modelled from the spec: [useMountTransition(isOpen, delay)] on a render
    where [isOpen] may have changed.  When it becomes true from Closed the
    content is attached at once (Entering); when it becomes false the
    content stays attached; in both cases the automatic transition happens
    after [delay] milliseconds, at once if [delay] is 0.  (The spec does not
    say what a change of intent does to a timer that is already running;
    here it is restarted.) *)
Definition useMountTransition (isOpen : bool) (delay : Z) (s : State)
  : State :=
  if Bool.eqb isOpen (intent s) then s
  else
    let s' := mkState (match phase s with
                       | Closed => if isOpen then Entering else Closed
                       | ph => ph
                       end) isOpen (Some delay) in
    if delay <=? 0 then fire s' else s'.

(** Modelled from the spec: [dt] milliseconds pass. *)
Definition advance (dt : Z) (s : State) : State :=
  match pending s with
  | None => s
  | Some r => if r <=? dt then fire s
              else mkState (phase s) (intent s) (Some (r - dt))
  end.

(** Modelled from the spec: the content is in the tree in every state but
    Closed. *)
Definition isContentVisible (s : State) : bool :=
  match phase s with
  | Closed => false
  | _ => true
  end.

(** Modelled from the spec: the opened transition state is Open. *)
Definition isTransitionClassApplied (s : State) : bool :=
  match phase s with
  | Open => true
  | _ => false
  end.

End MountTransition.

(** ** Modal.tsx *)

Module Modal.

Definition InstId := nat.

(** Line 24. *)
Definition TRANSITION_DURATION : Z := 200.

(** The props of [ModalProps] that drive the lifecycle logic; the boolean
    options default to [true] in the parameter list (lines 42-54). *)
Record Props := mkProps {
  isOpen : bool;
  closeOnEsc : option bool;
  lockScroll : option bool;
  trapFocus : option bool;
  autoFocus : option bool;
  returnFocus : option bool;
  transitionDuration : option Z;
  initialFocusRef : option FocusLock.RefId;
  finalFocusRef : option FocusLock.RefId
}.

Definition closeOnEsc_value (p : Props) : bool := default true (closeOnEsc p).
Definition lockScroll_value (p : Props) : bool := default true (lockScroll p).

(** Lines 62-65: the hook is called with the constant. *)
Definition mountTransition (p : Props) (s : MountTransition.State)
  : MountTransition.State :=
  MountTransition.useMountTransition (isOpen p) TRANSITION_DURATION s.

(** Lines 124-126: the value of [--modal-transition-duration], in ms. *)
Definition cssTransitionDuration (p : Props) : Z :=
  default TRANSITION_DURATION (transitionDuration p).

(** Lines 102-106: the props handed to [FocusLock]. *)
Definition focusLockProps (p : Props) : FocusLock.Props :=
  FocusLock.mkProps (Some (default true (trapFocus p)))
    (Some (default true (autoFocus p)))
    (Some (default true (returnFocus p)))
    None None.

(** [onEscape], lines 73-79.  [modals] is the result of
    [getOverlayElements("Modal")], [modalRef] is [modalRef.current]; the
    result tells whether [onClose()] is called. *)
Definition onEscape (closeOnEsc : bool) (modals : list Element)
    (modalRef : option Element) : bool :=
  if closeOnEsc then
    let lastModal := item modals (Z.of_nat (length modals) - 1) in
    truthy lastModal && strict_eq lastModal (of_nullable modalRef)
  else false.

(** The scroll-lock effect, lines 90-98.  [noScroll] tells whether
    [document.body.classList] contains [styles.Modal__noScroll]; the result
    is its value after the effect. *)
Definition scrollLockEffect (lockScroll isContentVisible : bool)
    (modals : list Element) (noScroll : bool) : bool :=
  if lockScroll then
    if isContentVisible && (Z.of_nat (length modals) =? 1) then true
    else if Z.of_nat (length modals) =? 0 then false
    else noScroll
  else noScroll.

(** One Modal component instance: its root [div], the props and the
    [isContentVisible] of its last render. *)
Record Instance := mkInstance {
  m_root : Element;
  m_props : Props;
  m_visible : bool
}.

(** Lines 100-101 and 134: the root is rendered, and [modalRef] attached,
    only while the content is visible. *)
Definition modalRef (inst : Instance) : option Element :=
  if m_visible inst then Some (m_root inst) else None.

Record World := mkWorld {
  (** the attached Modal roots, in document order *)
  w_overlays : list Element;
  (** [styles.Modal__noScroll] on the body *)
  w_noScroll : bool;
  w_modals : gmap InstId Instance
}.

Definition empty_world : World := mkWorld [] false ∅.

(** Modelled from the spec: [getOverlayElements] (utils/dom.utils) is not
    among the files at hand; given the Modal marker it returns the live
    ordered sequence of currently attached overlay roots, in document
    order, re-queried at each call. *)
Definition getOverlayElements (w : World) : list Element := w_overlays w.

(** The scroll-lock effect of instance [i], run after a commit. *)
Definition run_scrollLock (i : InstId) (w : World) : World :=
  match w_modals w !! i with
  | None => w
  | Some inst =>
      mkWorld (w_overlays w)
        (scrollLockEffect (lockScroll_value (m_props inst)) (m_visible inst)
           (getOverlayElements w) (w_noScroll w))
        (w_modals w)
  end.

(** The portal appends the root to its target when the content becomes
    visible and removes it when it stops being so. *)
Definition attach (root : Element) (w : World) : World :=
  mkWorld (w_overlays w ++ [root]) (w_noScroll w) (w_modals w).

Definition detach (root : Element) (w : World) : World :=
  mkWorld (filter (fun r => r ≠ root) (w_overlays w)) (w_noScroll w)
    (w_modals w).

Definition set_instance (i : InstId) (inst : Instance) (w : World) : World :=
  mkWorld (w_overlays w) (w_noScroll w) (<[i := inst]> (w_modals w)).

(** The component mounts; [visible] is the hook's [isContentVisible] on
    the first render.  The effect runs after the commit. *)
Definition mountModal (i : InstId) (root : Element) (p : Props)
    (visible : bool) (w : World) : World :=
  match w_modals w !! i with
  | Some _ => w
  | None =>
      let w := set_instance i (mkInstance root p visible) w in
      let w := if visible then attach root w else w in
      run_scrollLock i w
  end.

(** The hook's [isContentVisible] changes: the render is committed (the
    root attached or detached), then the effect, which depends on
    [lockScroll] and [isContentVisible], runs. *)
Definition setContentVisible (i : InstId) (visible : bool) (w : World)
  : World :=
  match w_modals w !! i with
  | None => w
  | Some inst =>
      if Bool.eqb visible (m_visible inst) then w
      else
        let w := set_instance i
                   (mkInstance (m_root inst) (m_props inst) visible) w in
        let w := if visible then attach (m_root inst) w
                 else detach (m_root inst) w in
        run_scrollLock i w
  end.

(** New props; the effect runs again when [lockScroll] changed. *)
Definition setProps (i : InstId) (p : Props) (w : World) : World :=
  match w_modals w !! i with
  | None => w
  | Some inst =>
      let w' := set_instance i (mkInstance (m_root inst) p (m_visible inst))
                  w in
      if Bool.eqb (lockScroll_value p) (lockScroll_value (m_props inst))
      then w' else run_scrollLock i w'
  end.

(** The parent stops rendering the Modal: React removes the root, if it is
    rendered, together with the portal.  The effect of lines 90-98 returns
    no cleanup function, so no code of the component runs. *)
Definition unmountModal (i : InstId) (w : World) : World :=
  match w_modals w !! i with
  | None => w
  | Some inst =>
      let w := if m_visible inst then detach (m_root inst) w else w in
      mkWorld (w_overlays w) (w_noScroll w) (delete i (w_modals w))
  end.


(** The render part of one change of [isContentVisible] within a commit
    that may change several Modals: the root is attached or detached and
    the instance is noted as having its effect to run.  A Modal has one
    [isContentVisible] per commit, so an instance that already changed in
    this commit is left as it is. *)
Definition commitChange (acc : World * list InstId) (c : InstId * bool)
  : World * list InstId :=
  match w_modals acc.1 !! c.1 with
  | None => acc
  | Some inst =>
      if Bool.eqb c.2 (m_visible inst) || bool_decide (c.1 ∈ acc.2) then acc
      else
        let w := set_instance c.1
                   (mkInstance (m_root inst) (m_props inst) c.2) acc.1 in
        let w := if c.2 then attach (m_root inst) w
                 else detach (m_root inst) w in
        (w, acc.2 ++ [c.1])
  end.

Definition renderChanges (changes : list (InstId * bool)) (w : World)
  : World * list InstId :=
  foldl commitChange (w, []) changes.

Definition runEffects (ids : list InstId) (w : World) : World :=
  foldl (fun w i => run_scrollLock i w) w ids.

(** One commit in which the [isContentVisible] of several Modals changes:
    React applies every change to the document first and runs the effects
    afterwards, so each effect queries the overlays as the whole commit
    left them. *)
Definition commitVisible (changes : list (InstId * bool)) (w : World)
  : World :=
  let acc := renderChanges changes w in
  runEffects acc.2 acc.1.

(** What happens to the Modals of a page.  Changes of visibility that share
    a commit are one [CommitVisible] event. *)
Inductive Event :=
| MountModal (i : InstId) (root : Element) (p : Props) (visible : bool)
| SetContentVisible (i : InstId) (visible : bool)
| SetProps (i : InstId) (p : Props)
| UnmountModal (i : InstId)
| CommitVisible (changes : list (InstId * bool)).

Definition step (w : World) (e : Event) : World :=
  match e with
  | MountModal i root p visible => mountModal i root p visible w
  | SetContentVisible i visible => setContentVisible i visible w
  | SetProps i p => setProps i p w
  | UnmountModal i => unmountModal i w
  | CommitVisible changes => commitVisible changes w
  end.

Definition run (w : World) (es : list Event) : World := foldl step w es.

(** The worlds after each event of a trace, in order. *)
Fixpoint history (w : World) (es : list Event) : list World :=
  match es with
  | [] => []
  | e :: es => step w e :: history (step w e) es
  end.

(** A key listener of a Modal: given the overlay query result and
    [modalRef.current] at the time of the event, tells whether [onClose()]
    is called. *)
Definition KeyListener : Type := list Element → option Element → bool.

(** [keyListenersMap], lines 81-86. *)
Definition keyListenersMap (p : Props) : gmap string KeyListener :=
  {[ "Escape" := onEscape (closeOnEsc_value p) ]}.

(** Modelled from the spec: [useKeyboardShortcut]
    (hooks/useKeyboardShortcut.hook) is not among the files at hand; on a
    keydown it runs the listener that the map holds for the event's key, if
    there is one.  It is called on every render, whether or not the content
    is visible (line 87). *)
Definition useKeyboardShortcut (listeners : gmap string KeyListener)
    (k : string) : option KeyListener :=
  listeners !! k.

(** Whether instance [i] calls its [onClose] on a keydown of [k]. *)
Definition closesOnKey (k : string) (w : World) (i : InstId) : bool :=
  match w_modals w !! i with
  | None => false
  | Some inst =>
      match useKeyboardShortcut (keyListenersMap (m_props inst)) k with
      | Some listener => listener (getOverlayElements w) (modalRef inst)
      | None => false
      end
  end.

Definition closesOnEscape : World → InstId → bool := closesOnKey "Escape".


(** Two stacked modals with every option at its default; the second one
    opened is the topmost. *)
Definition two_stacked : World :=
  run empty_world
    [MountModal 0%nat 10%nat
       (mkProps true None None None None None None None None) true;
     MountModal 1%nat 11%nat
       (mkProps true None None None None None None None None) true].





(** The scenario of two stacked modals that are opened one after the other
    and closed in either order. *)
Definition stacked_open_close (closeTopFirst : bool) : list Event :=
  let p := mkProps false None None None None None None None None in
  [MountModal 0%nat 10%nat p false; MountModal 1%nat 11%nat p false;
   SetContentVisible 0%nat true; SetContentVisible 1%nat true]
  ++ (if closeTopFirst
      then [SetContentVisible 1%nat false; SetContentVisible 0%nat false]
      else [SetContentVisible 0%nat false; SetContentVisible 1%nat false]).

End Modal.

(** ** Registrations of the focus locks, seen from the window

    What decides which listeners and observers exist is, per instance,
    whether it is mounted, the identities its cleanups hold, the [isLocked]
    of its last render and its root.  The effects on the refs and on the
    document do not change any of that. *)

Module Registration.

Import FocusLock.

Record Summary := mkSummary {
  s_mounted : bool;
  s_observer : nat;
  s_listener : nat;
  s_locked : bool;
  s_root : option Element
}.

Definition summary (inst : Instance) : Summary :=
  mkSummary (inst_mounted inst) (inst_observer inst) (inst_listener inst)
    (isLocked_value (inst_props inst)) (rootNode (inst_refs inst)).

Record Abs := mkAbs {
  a_listeners : list Listener;
  a_observers : list Observer;
  a_next : nat;
  a_sum : gmap InstId Summary
}.

Definition abs (w : World) : Abs :=
  mkAbs (w_listeners w) (w_observers w) (w_next w)
    (summary <$> w_instances w).

(** An effect body that leaves [rootNode] alone. *)
Definition keeps_root (m : M EffectState unit) : Prop :=
  ∀ s, rootNode (es_refs (snd (m s))) = rootNode (es_refs s).

Definition a_insert (i : InstId) (s : Summary) (a : Abs) : Abs :=
  mkAbs (a_listeners a) (a_observers a) (a_next a) (<[i := s]> (a_sum a)).

Definition a_observeEffect (i : InstId) (a : Abs) : Abs :=
  match a_sum a !! i with
  | None => a
  | Some s =>
      mkAbs (a_listeners a)
        (match s_root s with
         | Some root => a_observers a ++ [mkObserver (a_next a) i root]
         | None => a_observers a
         end)
        (S (a_next a))
        (<[i := mkSummary (s_mounted s) (a_next a) (s_listener s)
                  (s_locked s) (s_root s)]> (a_sum a))
  end.

Definition a_observeCleanup (i : InstId) (a : Abs) : Abs :=
  match a_sum a !! i with
  | None => a
  | Some s =>
      mkAbs (a_listeners a)
        (filter (fun o => o_id o ≠ s_observer s) (a_observers a))
        (a_next a) (a_sum a)
  end.

Definition a_keydownEffect (i : InstId) (a : Abs) : Abs :=
  match a_sum a !! i with
  | None => a
  | Some s =>
      mkAbs (a_listeners a ++ [mkListener (a_next a) i (s_locked s)])
        (a_observers a) (S (a_next a))
        (<[i := mkSummary (s_mounted s) (s_observer s) (a_next a)
                  (s_locked s) (s_root s)]> (a_sum a))
  end.

Definition a_keydownCleanup (i : InstId) (a : Abs) : Abs :=
  match a_sum a !! i with
  | None => a
  | Some s =>
      mkAbs (filter (fun l => l_id l ≠ s_listener s) (a_listeners a))
        (a_observers a) (a_next a) (a_sum a)
  end.

Definition a_set_lock (i : InstId) (locked : bool) (a : Abs) : Abs :=
  match a_sum a !! i with
  | None => a
  | Some s =>
      a_insert i
        (mkSummary (s_mounted s) (s_observer s) (s_listener s) locked
           (s_root s)) a
  end.

Definition a_retire (i : InstId) (a : Abs) : Abs :=
  match a_sum a !! i with
  | None => a
  | Some s =>
      a_insert i
        (mkSummary false (s_observer s) (s_listener s) (s_locked s) None) a
  end.

Definition a_mount (i : InstId) (root : Element) (locked : bool) (a : Abs)
  : Abs :=
  match a_sum a !! i with
  | Some _ => a
  | None =>
      a_keydownEffect i
        (a_observeEffect i
           (a_insert i (mkSummary true 0%nat 0%nat locked (Some root)) a))
  end.

Definition a_rerender (i : InstId) (locked : bool) (a : Abs) : Abs :=
  match a_sum a !! i with
  | None => a
  | Some s =>
      if s_mounted s then
        if negb (Bool.eqb (s_locked s) locked)
        then a_keydownEffect i (a_set_lock i locked (a_keydownCleanup i a))
        else a_set_lock i locked a
      else a
  end.

Definition a_unmount (i : InstId) (a : Abs) : Abs :=
  match a_sum a !! i with
  | None => a
  | Some s =>
      if s_mounted s
      then a_retire i (a_keydownCleanup i (a_observeCleanup i a))
      else a
  end.

Definition a_step (a : Abs) (e : Event) : Abs :=
  match e with
  | Mount i root p => a_mount i root (isLocked_value p) a
  | Rerender i p => a_rerender i (isLocked_value p) a
  | Unmount i => a_unmount i a
  | _ => a
  end.

(** The registrations are in order: identities are fresh and distinct,
    every listener and observer belongs to a mounted instance and agrees
    with it, and every mounted instance has its listener and its observer
    in place. *)
Record tidy (a : Abs) : Prop := mkTidy {
  tidy_listener_ids :
    ∀ l, l ∈ a_listeners a → (l_id l < a_next a)%nat;
  tidy_observer_ids :
    ∀ o, o ∈ a_observers a → (o_id o < a_next a)%nat;
  tidy_listeners_nodup : NoDup (l_id <$> a_listeners a);
  tidy_observers_nodup : NoDup (o_id <$> a_observers a);
  tidy_listeners :
    ∀ l, l ∈ a_listeners a →
         ∃ s, a_sum a !! l_owner l = Some s ∧ s_mounted s = true
              ∧ s_listener s = l_id l ∧ s_locked s = l_isLocked l;
  tidy_observers :
    ∀ o, o ∈ a_observers a →
         ∃ s, a_sum a !! o_owner o = Some s ∧ s_mounted s = true
              ∧ s_observer s = o_id o ∧ s_root s = Some (o_target o);
  tidy_mounted :
    ∀ i s, a_sum a !! i = Some s → s_mounted s = true →
           mkListener (s_listener s) i (s_locked s) ∈ a_listeners a
           ∧ ∃ root, s_root s = Some root
                     ∧ mkObserver (s_observer s) i root ∈ a_observers a
}.

End Registration.

(** ** Modal.tsx: traces without scroll locking, and the rendered tree *)

Module ModalTraces.

Import Modal.

(** An event none of whose props asks for scroll locking. *)
Definition neverLocks (e : Event) : bool :=
  match e with
  | MountModal _ _ p _ => negb (lockScroll_value p)
  | SetContentVisible _ _ => true
  | SetProps _ p => negb (lockScroll_value p)
  | UnmountModal _ => true
  | CommitVisible _ => true
  end.

(** No Modal asks for scroll locking. *)
Definition none_lock (w : World) : Prop :=
  ∀ i inst, w_modals w !! i = Some inst →
            lockScroll_value (m_props inst) = false.

End ModalTraces.

Module ModalRender.

(** The tree a component returns: elements by component name, with their
    children.  Class names, styles and other attributes are not part of
    it. *)
Local Unset Elimination Schemes.
Inductive Node :=
| Elem (name : string) (children : list Node).
Local Set Elimination Schemes.

(** A [ReactNode] prop such as [title]: absent, a text, or an element. *)
Inductive ReactNode :=
| RUndefined
| RText (t : string)
| RElem (n : Node).

(** [!!node]: absent values and the empty text are falsy. *)
Definition truthy_node (r : ReactNode) : bool :=
  match r with
  | RUndefined => false
  | RText t => negb (String.eqb t "")
  | RElem _ => true
  end.

(** What a [ReactNode] contributes to the children of an element. *)
Definition as_children (r : ReactNode) : list Node :=
  match r with
  | RUndefined => []
  | RText t => if String.eqb t "" then [] else [Elem "#text" []]
  | RElem n => [n]
  end.

(** [{cond && <X/>}]: the element when [cond] holds, nothing otherwise. *)
Definition when (cond : bool) (n : Node) : list Node :=
  if cond then [n] else [].

(** The props that shape the tree (lines 34-39, defaults included). *)
Record ViewProps := mkViewProps {
  title : ReactNode;
  showCloseButton : option bool;
  showBackdrop : option bool
}.

(** [ModalCloseButton], lines 275-304. *)
Definition ModalCloseButton : Node :=
  Elem "ModalCloseButton" [Elem "Button" [Elem "MdClose" []]].

(** The value returned by [Modal], lines 100-179: the portal content while
    the content is visible, [null] otherwise. *)
Definition render (p : ViewProps) (isContentVisible : bool)
    (children : list Node) : option Node :=
  let hasHeader := truthy_node (title p) in
  let showClose := default true (showCloseButton p) in
  if isContentVisible then
    Some
      (Elem "FocusLock"
         [Elem "Modal"
            (when (default true (showBackdrop p)) (Elem "ModalBackdrop" [])
             ++ [Elem "ModalInner"
                   [Elem "ModalContent"
                      (when hasHeader
                         (Elem "ModalHeader"
                            (as_children (title p)
                             ++ when showClose ModalCloseButton))
                       ++ when (negb hasHeader && showClose) ModalCloseButton
                       ++ [Elem "ModalBody" children])]])])
  else None.

(** How many elements of a tree carry the name [tag]. *)
Fixpoint count (tag : string) (n : Node) : nat :=
  match n with
  | Elem name children =>
      ((if String.eqb name tag then 1 else 0)
       + list_sum (map (count tag) children))%nat
  end.

Definition count_all (tag : string) (ns : list Node) : nat :=
  list_sum (map (count tag) ns).

Definition count_rendered (tag : string) (r : option Node) : nat :=
  match r with
  | Some n => count tag n
  | None => 0%nat
  end.

End ModalRender.

(** * Properties *)

(** ** Indexing and reference equality *)

Lemma strict_eq_elem (a : option Element) (e : Element) :
  strict_eq (of_nullable a) (JsElem e) = bool_decide (a = Some e).
Proof.
  destruct a as [x|]; simpl.
  - destruct (Nat.eqb_spec x e) as [->|Hne].
    + by rewrite bool_decide_eq_true_2.
    + rewrite bool_decide_eq_false_2; [done | congruence].
  - done.
Qed.

Lemma strict_eq_undefined (a : option Element) :
  strict_eq (of_nullable a) JsUndefined = false.
Proof. by destruct a. Qed.

Lemma item_first (items : list Element) (e : Element) :
  items !! 0%nat = Some e → item items 0 = JsElem e.
Proof.
  intros H. unfold item.
  change (0 <? 0) with false. change (Z.to_nat 0) with 0%nat.
  by rewrite H.
Qed.

Lemma item_last (items : list Element) (e : Element) :
  last items = Some e → item items (Z.of_nat (length items) - 1) = JsElem e.
Proof.
  intros H. unfold item.
  destruct items as [|x items]; [done |].
  rewrite last_lookup in H.
  replace (Z.to_nat (Z.of_nat (length (x :: items)) - 1))
    with (pred (length (x :: items))) by (simpl; lia).
  rewrite H.
  destruct (Z.ltb_spec (Z.of_nat (length (x :: items)) - 1) 0) as [Hlt|_];
    [simpl in Hlt; lia | done].
Qed.

Lemma item_empty (i : Z) : item [] i = JsUndefined.
Proof. unfold item. by destruct (i <? 0). Qed.

Lemma item_elem_first (items : list Element) (i : Z) (e : Element) :
  item items i = JsElem e → ∃ x, item items 0 = JsElem x.
Proof.
  destruct items as [|x items]; [by rewrite item_empty |].
  intros _. by exists x.
Qed.

Lemma item_elem_last (items : list Element) (i : Z) (e : Element) :
  item items i = JsElem e →
  ∃ x, item items (Z.of_nat (length items) - 1) = JsElem x.
Proof.
  destruct items as [|y items]; [by rewrite item_empty |].
  intros _. destruct (last (y :: items)) as [x|] eqn:Hlast.
  - exists x. by apply item_last.
  - by apply last_None in Hlast.
Qed.

Lemma strict_eq_item (a : option Element) (items : list Element) (i : Z) :
  strict_eq (of_nullable a) (item items i) = true →
  ∃ e, item items i = JsElem e.
Proof.
  destruct (item items i) as [| |e] eqn:E.
  - unfold item in E. destruct (i <? 0); [done |].
    by destruct (items !! Z.to_nat i).
  - by rewrite strict_eq_undefined.
  - by exists e.
Qed.

(** What a [focus()] call on an element leaves as active element. *)
Lemma activeElement_focusElement (e : Element) (d : Document) :
  activeElement (focusElement e d) = after_focus_call (Some e) d.
Proof. unfold focusElement, after_focus_call. by destruct (canFocus d e). Qed.

Lemma canFocus_focusElement (e : Element) (d : Document) :
  canFocus (focusElement e d) = canFocus d.
Proof. unfold focusElement. by destruct (canFocus d e). Qed.

(** ** The Tab handler *)

(** The handler never throws: whenever it calls [focus()] on the first or
    the last item, that item exists. *)
Lemma handleKeyPress_returns (locked : bool) (items : option (list Element))
    (s : FocusLock.HandlerState) :
  FocusLock.returned (FocusLock.handleKeyPress locked items s) = true.
Proof.
  destruct items as [items|]; [| done].
  unfold FocusLock.handleKeyPress, Js.bind, Js.get,
    FocusLock.getActiveElement, FocusLock.returned. simpl.
  destruct (locked && _); [| done].
  destruct (Z.of_nat (length items) =? 1); [done |].
  unfold Js.bind, Js.get, Js.ret. simpl.
  destruct (negb _ && _) eqn:Hfwd.
  - apply andb_true_iff in Hfwd as [_ Heq].
    apply strict_eq_item in Heq as [e He].
    apply item_elem_first in He as [x ->]. done.
  - destruct (shiftKey _ && _) eqn:Hbwd; [| done].
    apply andb_true_iff in Hbwd as [_ Heq].
    apply strict_eq_item in Heq as [e He].
    apply item_elem_last in He as [x ->]. done.
Qed.

Section TabHandler.

Import FocusLock.

Variable d : Document.
Variable shift : bool.

(** The handler on a Tab keydown with the lock on, as one equation. *)
Lemma press_tab_locked (items : list Element) :
  let n := Z.of_nat (length items) in
  let s0 := untouched "Tab" shift d in
  let s1 := mkHandlerState d (mkKeyboardEvent "Tab" shift true) in
  press true (Some items) "Tab" shift d =
    if n =? 1 then (Normal tt, s1)
    else if negb shift
            && strict_eq (of_nullable (activeElement d)) (item items (n - 1))
    then method_focus hs_on_document (item items 0) s1
    else if shift && strict_eq (of_nullable (activeElement d)) (item items 0)
    then method_focus hs_on_document (item items (n - 1)) s1
    else (Normal tt, s0).
Proof.
  intros n s0 s1. subst n s0 s1.
  unfold press, handleKeyPress, Js.bind, Js.get, getActiveElement, untouched;
    simpl.
  destruct (Z.of_nat (length items) =? 1); [done |].
  unfold Js.bind, Js.get, Js.ret; simpl.
  destruct (negb shift && _); [done |].
  destruct (shift && _); done.
Qed.

(** C3, as amended.  With at least two items in the stored list and the
    lock on, a Tab keydown with shift not held while the last item has focus
    suppresses the default action and calls [focus()] on the first item;
    with shift held while the first item has focus it suppresses the default
    action and calls [focus()] on the last item.  The call moves focus to
    the item when the item can take focus, and leaves focus where it was
    otherwise.  In every other case the handler returns without touching the
    event or the document. *)
Theorem tab_wraps_at_both_ends (items : list Element)
    (firstItem lastItem : Element) :
  (2 ≤ length items)%nat →
  items !! 0%nat = Some firstItem →
  last items = Some lastItem →
  let r := press true (Some items) "Tab" shift d in
  returned r = true
  ∧ (shift = false → activeElement d = Some lastItem →
     prevented r = true
     ∧ focused r = after_focus_call (Some firstItem) d
     ∧ (canFocus d firstItem = true → focused r = Some firstItem))
  ∧ (shift = true → activeElement d = Some firstItem →
     prevented r = true
     ∧ focused r = after_focus_call (Some lastItem) d
     ∧ (canFocus d lastItem = true → focused r = Some lastItem))
  ∧ (¬ (shift = false ∧ activeElement d = Some lastItem) →
     ¬ (shift = true ∧ activeElement d = Some firstItem) →
     r = (Normal tt, untouched "Tab" shift d)).
Proof.
  intros Hlen Hfirst Hlast r. subst r.
  rewrite press_tab_locked.
  rewrite (item_first _ _ Hfirst), (item_last _ _ Hlast), !strict_eq_elem.
  destruct (Z.eqb_spec (Z.of_nat (length items)) 1) as [Heq|_]; [lia |].
  unfold method_focus, Js.modify, hs_on_document, focused, prevented,
    returned.
  destruct shift; simpl; case_bool_decide; simpl;
    rewrite ?activeElement_focusElement;
    repeat split; try done;
    try (intros; exfalso; tauto);
    intros; simpl; by rewrite ?H0, ?H1, ?H2.
Qed.

(** C4. With exactly one focusable item and the lock on, every Tab keydown
    suppresses the default action, with or without shift; the handler
    returns and leaves the focus where it was. *)
Theorem tab_single_item_prevents (items : list Element) :
  length items = 1%nat →
  let r := press true (Some items) "Tab" shift d in
  prevented r = true ∧ returned r = true ∧ focused r = activeElement d.
Proof.
  intros Hlen r. subst r.
  unfold press, handleKeyPress, Js.bind, Js.get; simpl.
  rewrite Hlen. done.
Qed.

(** C5. With no focusable item and the lock on, a Tab keydown is a no-op:
    the handler returns normally, the event's default is not suppressed and
    the document is unchanged.  This holds for an empty list and for a list
    that was never queried. *)
Theorem tab_empty_is_noop :
  press true (Some []) "Tab" shift d = (Normal tt, untouched "Tab" shift d)
  ∧ press true None "Tab" shift d = (Normal tt, untouched "Tab" shift d)
  ∧ prevented (press true (Some []) "Tab" shift d) = false
  ∧ focused (press true (Some []) "Tab" shift d) = activeElement d.
Proof.
  assert (H : press true (Some []) "Tab" shift d
              = (Normal tt, untouched "Tab" shift d)).
  { rewrite press_tab_locked. rewrite !item_empty.
    rewrite !strict_eq_undefined, !andb_false_r. done. }
  rewrite H. repeat split; done.
Qed.

End TabHandler.

(** Three items, focus on the last, Tab without shift: focus wraps to the
    first item. *)
Lemma tab_wraps_at_both_ends_witness :
  let items := [1; 2; 3]%nat in
  let d := page (Some 3%nat) (fun _ => items) in
  let r := FocusLock.press true (Some items) "Tab" false d in
  (2 ≤ length items)%nat
  ∧ items !! 0%nat = Some 1%nat
  ∧ last items = Some 3%nat
  ∧ canFocus d 1%nat = true
  ∧ FocusLock.returned r = true
  ∧ FocusLock.prevented r = true
  ∧ FocusLock.focused r = Some 1%nat.
Proof.
  intros items d r.
  split; [simpl; lia |]. split; [reflexivity |]. split; [reflexivity |].
  split; [reflexivity |].
  destruct (tab_wraps_at_both_ends d false items 1%nat 3%nat)
    as (H1 & H2 & _); [simpl; lia | reflexivity | reflexivity |].
  destruct (H2 eq_refl eq_refl) as (Hp & _ & Hf).
  split; [exact H1 |]. split; [exact Hp |]. apply Hf. reflexivity.
Defined.

(** C3, as stated, fails.  The stored list is [5; 6], focus is on element 6
    and element 5 can no longer take focus (it was disabled after the list
    was queried): a Tab without shift is suppressed, but focus stays on
    element 6 and does not move to the first item. *)
Lemma tab_wrap_onto_stale_item_keeps_focus :
  let items := [5; 6]%nat in
  let d := mkDocument (Some 6%nat) (fun _ => items)
             (fun e => negb (Nat.eqb e 5)) (fun _ _ => true) in
  let r := FocusLock.press true (Some items) "Tab" false d in
  (2 ≤ length items)%nat
  ∧ items !! 0%nat = Some 5%nat
  ∧ last items = Some 6%nat
  ∧ activeElement d = Some 6%nat
  ∧ FocusLock.prevented r = true
  ∧ FocusLock.focused r = Some 6%nat
  ∧ FocusLock.focused r ≠ Some 5%nat.
Proof.
  repeat split; try reflexivity; try (simpl; lia). discriminate.
Qed.

(** One item, Tab with shift held: the default is suppressed. *)
Lemma tab_single_item_prevents_witness :
  let d := page (Some 7%nat) (fun _ => [7%nat]) in
  length [7%nat] = 1%nat
  ∧ FocusLock.prevented (FocusLock.press true (Some [7%nat]) "Tab" true d)
    = true.
Proof.
  intros d. split; [reflexivity |].
  apply (tab_single_item_prevents d true [7%nat]). reflexivity.
Defined.

(** ** Autofocus and return focus *)

Section FocusEffect.

Import FocusLock.

Variable current : RefId → option Element.


(** Without [autoFocusOnMount] the effect does nothing at all. *)
Lemma focusEffect_without_autofocus (p : Props) (s : EffectState) :
  flag (autoFocusOnMount p) = false →
  focusEffect p current s = (Normal tt, s).
Proof. intros Hauto. unfold focusEffect. by rewrite Hauto. Qed.



(** C1, where the code departs from it.  Without [autoFocusOnMount] the
    effect of a fresh instance stores no return target, whatever
    [returnFocusOnClose] and the final focus ref are; so when focus has moved
    to [a] in the meantime, the cleanup leaves it on [a] and does not give it
    back to the element that had it before activation. *)
Theorem return_focus_lost_without_autofocus (p : Props) (s : EffectState)
    (a : option Element) :
  flag (autoFocusOnMount p) = false →
  returnFocusNode (es_refs s) = None →
  let activated := snd (focusEffect p current s) in
  let released := focusCleanup p (focus_moved a activated) in
  returnFocusNode (es_refs activated) = None
  ∧ returned released = true
  ∧ focus_after released = a.
Proof.
  intros Hauto Hfresh activated released. subst activated released.
  rewrite (focusEffect_without_autofocus p s Hauto). simpl.
  split; [exact Hfresh |].
  unfold focusCleanup, focus_moved, focus_after, returned.
  destruct (flag (returnFocusOnClose p)); [| done].
  unfold Js.bind, Js.get. simpl. rewrite Hfresh. done.
Qed.

(** C6, as amended.  With [autoFocusOnMount], when no initial-focus ref was
    passed the effect calls [focus()] on element 0 of the stored focusable
    list: focus moves there when that element can take focus, and stays
    where it was when it cannot or when the list is empty or was never
    queried.  When a ref was passed that holds no element, the focus is left
    alone (there is no fallback to the focusable list).  The effect returns
    normally in all these cases. *)
Theorem autofocus_without_target (p : Props) (s : EffectState) :
  flag (autoFocusOnMount p) = true →
  initial_target_missing current p →
  let r := focusEffect p current s in
  returned r = true
  ∧ focus_after r = match initialFocusRef p with
                    | None => first_or_unchanged s
                    | Some _ => activeElement (es_document s)
                    end
  ∧ (initialFocusRef p = None →
     ∀ e items, focusableItems (es_refs s) = Some (e :: items) →
                focus_after r = if canFocus (es_document s) e then Some e
                                else activeElement (es_document s))
  ∧ (initialFocusRef p = None →
     focusableItems (es_refs s) = Some [] ∨ focusableItems (es_refs s) = None →
     focus_after r = activeElement (es_document s)).
Proof.
  intros Hauto Hmiss r. subst r.
  assert (Hfocus : focus_after (focusEffect p current s)
                   = match initialFocusRef p with
                     | None => first_or_unchanged s
                     | Some _ => activeElement (es_document s)
                     end
                   ∧ returned (focusEffect p current s) = true).
  { unfold focusEffect, initial_target_missing in *. rewrite Hauto.
    unfold Js.bind, Js.get, set_returnFocusNode, Js.modify, focus_after,
      first_or_unchanged, returned; simpl.
    destruct (initialFocusRef p) as [r|]; simpl.
    - rewrite Hmiss. done.
    - destruct (focusableItems (es_refs s)) as [[|e l]|]; simpl;
        rewrite ?item_empty, ?activeElement_focusElement; done. }
  destruct Hfocus as [Hfocus Hret].
  split; [exact Hret |]. split; [exact Hfocus |]. split.
  - intros Hnone e items Hitems. rewrite Hfocus, Hnone.
    unfold first_or_unchanged. by rewrite Hitems.
  - intros Hnone Hempty. rewrite Hfocus, Hnone. unfold first_or_unchanged.
    by destruct Hempty as [-> | ->].
Qed.

End FocusEffect.

(** A Modal with [autoFocus] off and [returnFocus] at its default:
    element 1 has focus before activation, the user moves focus to element
    5, and the release leaves it there. *)
Lemma return_focus_lost_without_autofocus_witness :
  let m := Modal.mkProps true None None None (Some false) None None None
             None in
  let p := Modal.focusLockProps m in
  let s := FocusLock.mkEffectState
             (page (Some 1%nat) (fun _ => [5; 6]%nat))
             (FocusLock.mkRefs (Some 10%nat) (Some [5; 6]%nat) None) in
  let activated := snd (FocusLock.focusEffect p (fun _ => None) s) in
  let released := FocusLock.focusCleanup p
                    (FocusLock.focus_moved (Some 5%nat) activated) in
  FocusLock.flag (FocusLock.autoFocusOnMount p) = false
  ∧ FocusLock.flag (FocusLock.returnFocusOnClose p) = true
  ∧ FocusLock.finalFocusRef p = None
  ∧ FocusLock.returnFocusNode (FocusLock.es_refs s) = None
  ∧ activeElement (FocusLock.es_document s) = Some 1%nat
  ∧ FocusLock.returnFocusNode (FocusLock.es_refs activated) = None
  ∧ FocusLock.focus_after released = Some 5%nat.
Proof.
  intros m p s activated released.
  do 5 (split; [reflexivity |]).
  destruct (return_focus_lost_without_autofocus (fun _ => None) p s
              (Some 5%nat)) as (H1 & _ & H2); [reflexivity | reflexivity |].
  split; [exact H1 | exact H2].
Defined.

(** No initial-focus ref and two focusable items: the first one is
    focused. *)
Lemma autofocus_without_target_witness :
  let p := FocusLock.mkProps None (Some true) None None None in
  let s := FocusLock.mkEffectState (page (Some 9%nat) (fun _ => []))
             (FocusLock.mkRefs (Some 0%nat) (Some [5; 6]%nat) None) in
  FocusLock.flag (FocusLock.autoFocusOnMount p) = true
  ∧ FocusLock.initial_target_missing (fun _ => None) p
  ∧ FocusLock.focus_after (FocusLock.focusEffect p (fun _ => None) s)
    = Some 5%nat.
Proof.
  intros p s. split; [reflexivity |]. split; [exact I |].
  destruct (autofocus_without_target (fun _ => None) p s)
    as (_ & _ & H & _); [reflexivity | exact I |].
  exact (H eq_refl 5%nat [6%nat] eq_refl).
Defined.

(** C6, as stated, fails.  An initial-focus ref is passed but holds no
    element, the focusable list is [5; 6] and element 9 has focus: after the
    effect, focus is still on element 9, not on element 5. *)
Lemma autofocus_unresolved_ref_no_fallback :
  let current := fun _ : FocusLock.RefId => @None Element in
  let p := FocusLock.mkProps None (Some true) None (Some 0%nat) None in
  let s := FocusLock.mkEffectState
             (page (Some 9%nat) (fun _ => [5; 6]%nat))
             (FocusLock.mkRefs (Some 0%nat) (Some [5; 6]%nat) None) in
  FocusLock.flag (FocusLock.autoFocusOnMount p) = true
  ∧ FocusLock.initial_target_missing current p
  ∧ FocusLock.first_or_unchanged s = Some 5%nat
  ∧ FocusLock.focus_after (FocusLock.focusEffect p current s) = Some 9%nat
  ∧ FocusLock.focus_after (FocusLock.focusEffect p current s)
    ≠ FocusLock.first_or_unchanged s.
Proof. repeat split; try reflexivity. discriminate. Qed.

(** ** Listeners and observers over the life of an instance *)

Section Ownership.

Import FocusLock.

Lemma run_effect_listeners i m w :
  w_listeners (run_effect i m w) = w_listeners w.
Proof. unfold run_effect. by destruct (w_instances w !! i). Qed.

Lemma run_effect_observers i m w :
  w_observers (run_effect i m w) = w_observers w.
Proof. unfold run_effect. by destruct (w_instances w !! i). Qed.

Lemma run_effect_registry i m w : registry (run_effect i m w) = registry w.
Proof.
  unfold run_effect, registry.
  destruct (w_instances w !! i) as [inst|] eqn:E; [| done]. simpl.
  rewrite fmap_insert. apply insert_id. by rewrite lookup_fmap, E.
Qed.

Lemma registry_lookup w i :
  registry w !! i = handles <$> w_instances w !! i.
Proof. apply lookup_fmap. Qed.

(** Consistency only depends on the listeners, the observers and the
    registry. *)
Lemma consistent_frame w w' :
  w_listeners w' = w_listeners w →
  w_observers w' = w_observers w →
  registry w' = registry w →
  consistent w → consistent w'.
Proof.
  intros Hl Ho Hr [H1 H2]. split.
  - intros l Hin. rewrite Hl in Hin. rewrite Hr. by apply H1.
  - intros o Hin. rewrite Ho in Hin. rewrite Hr. by apply H2.
Qed.

Lemma run_effect_consistent i m w :
  consistent w → consistent (run_effect i m w).
Proof.
  apply consistent_frame;
    auto using run_effect_listeners, run_effect_observers,
               run_effect_registry.
Qed.

Lemma run_effect_no_listener i j m w :
  no_listener_of j w → no_listener_of j (run_effect i m w).
Proof. unfold no_listener_of. by rewrite run_effect_listeners. Qed.

Lemma run_effect_lookup_handles i j m w :
  handles <$> w_instances (run_effect i m w) !! j
  = handles <$> w_instances w !! j.
Proof. rewrite <- !registry_lookup. by rewrite run_effect_registry. Qed.

(** An instance that is absent or not mounted owns nothing. *)
Lemma unmounted_owns_nothing i w :
  consistent w →
  (∀ o l, registry w !! i ≠ Some (true, o, l)) →
  no_listener_of i w ∧ no_observer_of i w.
Proof.
  intros [H1 H2] Hno. split.
  - intros l Hin Heq. destruct (H1 l Hin) as [o Ho].
    rewrite Heq in Ho. by eapply Hno.
  - intros o Hin Heq. destruct (H2 o Hin) as [l Hl].
    rewrite Heq in Hl. by eapply Hno.
Qed.

(** Changing the handles of one instance keeps the world consistent when
    every listener and observer is either an old one of another instance or
    matches the new handles. *)
Lemma consistent_update w w' i h :
  registry w' = <[i := h]> (registry w) →
  (∀ l, l ∈ w_listeners w' →
        (l ∈ w_listeners w ∧ l_owner l ≠ i)
        ∨ (l_owner l = i ∧ ∃ o, h = (true, o, l_id l))) →
  (∀ o, o ∈ w_observers w' →
        (o ∈ w_observers w ∧ o_owner o ≠ i)
        ∨ (o_owner o = i ∧ ∃ l, h = (true, o_id o, l))) →
  consistent w → consistent w'.
Proof.
  intros Hr Hl Ho [H1 H2]. split.
  - intros l Hin. rewrite Hr.
    destruct (Hl l Hin) as [[Hold Hne]|[Heq [o ->]]].
    + rewrite lookup_insert_ne by done. by apply H1.
    + rewrite Heq, lookup_insert_eq. by exists o.
  - intros o Hin. rewrite Hr.
    destruct (Ho o Hin) as [[Hold Hne]|[Heq [l ->]]].
    + rewrite lookup_insert_ne by done. by apply H2.
    + rewrite Heq, lookup_insert_eq. by exists l.
Qed.

Lemma keydownCleanup_consistent i w :
  consistent w →
  consistent (keydownCleanup i w) ∧ no_listener_of i (keydownCleanup i w).
Proof.
  intros Hc. unfold keydownCleanup.
  destruct (w_instances w !! i) as [inst|] eqn:E.
  - destruct Hc as [H1 H2]. split; [split |].
    + intros l Hin. simpl in Hin. apply list_elem_of_filter in Hin as [_ Hin].
      by apply H1.
    + exact H2.
    + intros l Hin Heq. simpl in Hin.
      apply list_elem_of_filter in Hin as [Hid Hin].
      destruct (H1 l Hin) as [o Ho].
      rewrite Heq, registry_lookup, E in Ho. simpl in Ho.
      unfold handles in Ho. congruence.
  - split; [done |]. apply unmounted_owns_nothing; [done |].
    intros o l. by rewrite registry_lookup, E.
Qed.

Lemma observeCleanup_consistent i w :
  consistent w →
  consistent (observeCleanup i w) ∧ no_observer_of i (observeCleanup i w).
Proof.
  intros Hc. unfold observeCleanup.
  destruct (w_instances w !! i) as [inst|] eqn:E.
  - destruct Hc as [H1 H2]. split; [split |].
    + exact H1.
    + intros o Hin. simpl in Hin. apply list_elem_of_filter in Hin as [_ Hin].
      by apply H2.
    + intros o Hin Heq. simpl in Hin.
      apply list_elem_of_filter in Hin as [Hid Hin].
      destruct (H2 o Hin) as [l Hl].
      rewrite Heq, registry_lookup, E in Hl. simpl in Hl.
      unfold handles in Hl. congruence.
  - split; [done |]. apply unmounted_owns_nothing; [done |].
    intros o l. by rewrite registry_lookup, E.
Qed.

Lemma keydownEffect_consistent i w :
  consistent w → no_listener_of i w → mounted_if_present i w →
  consistent (keydownEffect i w).
Proof.
  intros Hc Hno Hm. unfold keydownEffect.
  destruct (w_instances w !! i) as [inst|] eqn:E; [| done].
  eapply (consistent_update w _ i); [| | | exact Hc].
  - unfold registry. simpl. by rewrite fmap_insert.
  - intros l Hin. simpl in Hin. apply elem_of_app in Hin as [Hin|Hin].
    + left. split; [done |]. by apply Hno.
    + apply list_elem_of_singleton in Hin as ->. right. simpl.
      split; [done |]. exists (inst_observer inst).
      unfold handles. simpl. by rewrite (Hm inst E).
  - intros o Hin. simpl in Hin.
    destruct (decide (o_owner o = i)) as [Heq|Hne]; [right | by left].
    split; [done |]. destruct Hc as [_ H2]. destruct (H2 o Hin) as [l Hl].
    rewrite Heq, registry_lookup, E in Hl. simpl in Hl.
    unfold handles in *. simpl. exists (w_next w). congruence.
Qed.

Lemma observeEffect_consistent i w :
  consistent w → no_observer_of i w → mounted_if_present i w →
  consistent (observeEffect i w).
Proof.
  intros Hc Hno Hm. unfold observeEffect.
  pose proof (run_effect_consistent i updateFocusableItems w Hc) as Hc'.
  assert (Hno' : no_observer_of i (run_effect i updateFocusableItems w)).
  { unfold no_observer_of. by rewrite run_effect_observers. }
  assert (Hm' : mounted_if_present i (run_effect i updateFocusableItems w)).
  { intros inst E.
    pose proof (run_effect_lookup_handles i i updateFocusableItems w) as Hh.
    rewrite E in Hh. simpl in Hh.
    destruct (w_instances w !! i) as [inst0|] eqn:E0; [| done].
    simpl in Hh. unfold handles in Hh.
    pose proof (Hm inst0 E0). congruence. }
  set (w1 := run_effect i updateFocusableItems w) in *.
  destruct (w_instances w1 !! i) as [inst|] eqn:E; [| done].
  eapply (consistent_update w1 _ i); [| | | exact Hc'].
  - unfold registry. simpl. by rewrite fmap_insert.
  - intros l Hin. simpl in Hin.
    destruct (decide (l_owner l = i)) as [Heq|Hne]; [right | by left].
    split; [done |]. destruct Hc' as [H1 _]. destruct (H1 l Hin) as [o Ho].
    rewrite Heq, registry_lookup, E in Ho. simpl in Ho.
    unfold handles in *. simpl. exists (w_next w1). congruence.
  - intros o Hin. simpl in Hin.
    destruct (rootNode (inst_refs inst)) as [root|].
    + apply elem_of_app in Hin as [Hin|Hin].
      * left. split; [done |]. by apply Hno'.
      * apply list_elem_of_singleton in Hin as ->. right. simpl.
        split; [done |]. exists (inst_listener inst).
        unfold handles. simpl. by rewrite (Hm' inst E).
    + left. split; [done |]. by apply Hno'.
Qed.

Lemma mounted_if_present_registry i w w' :
  registry w' = registry w →
  mounted_if_present i w → mounted_if_present i w'.
Proof.
  intros Hr Hm inst E.
  assert (Hh : registry w !! i = Some (handles inst)).
  { by rewrite <- Hr, registry_lookup, E. }
  rewrite registry_lookup in Hh.
  destruct (w_instances w !! i) as [inst0|] eqn:E0; [| done].
  simpl in Hh. pose proof (Hm inst0 E0). unfold handles in Hh.
  congruence.
Qed.

Lemma keydownCleanup_registry i w :
  registry (keydownCleanup i w) = registry w.
Proof. unfold keydownCleanup. by destruct (w_instances w !! i). Qed.

Lemma set_props_frame i q w :
  w_listeners (set_props i q w) = w_listeners w
  ∧ w_observers (set_props i q w) = w_observers w
  ∧ registry (set_props i q w) = registry w.
Proof.
  unfold set_props.
  destruct (w_instances w !! i) as [inst|] eqn:E; [| done].
  repeat split. unfold registry. simpl.
  rewrite fmap_insert. apply insert_id. by rewrite lookup_fmap, E.
Qed.

Lemma set_props_consistent i q w :
  consistent w → consistent (set_props i q w).
Proof.
  destruct (set_props_frame i q w) as (Hl & Ho & Hr).
  by apply consistent_frame.
Qed.

Lemma retire_consistent i w :
  consistent w → no_listener_of i w → no_observer_of i w →
  consistent (retire i w) ∧ no_listener_of i (retire i w)
  ∧ no_observer_of i (retire i w).
Proof.
  intros Hc Hl Ho. unfold retire.
  destruct (w_instances w !! i) as [inst|] eqn:E; [| done].
  split; [| done].
  eapply (consistent_update w _ i); [| | | exact Hc].
  - unfold registry. simpl. by rewrite fmap_insert.
  - intros l Hin. left. split; [done |]. by apply Hl.
  - intros o Hin. left. split; [done |]. by apply Ho.
Qed.

Lemma mount_consistent i root p w :
  consistent w → consistent (mount i root p w).
Proof.
  intros Hc. unfold mount.
  destruct (w_instances w !! i) as [inst|] eqn:E; [done |].
  destruct (unmounted_owns_nothing i w Hc) as [Hl Ho].
  { intros o l. by rewrite registry_lookup, E. }
  set (inst0 := mkInstance (mkRefs (Some root) None None) p true 0%nat 0%nat).
  set (w1 := set_instance i inst0 w).
  assert (Hc1 : consistent w1).
  { eapply (consistent_update w w1 i); [| | | exact Hc].
    - unfold registry. simpl. by rewrite fmap_insert.
    - intros l Hin. left. split; [done |]. by apply Hl.
    - intros o Hin. left. split; [done |]. by apply Ho. }
  assert (Hm1 : mounted_if_present i w1).
  { intros inst E1. unfold w1, set_instance in E1. simpl in E1.
    rewrite lookup_insert_eq in E1. by injection E1 as <-. }
  assert (Hc2 : consistent (observeEffect i w1)).
  { by apply observeEffect_consistent. }
  set (w2 := observeEffect i w1) in *.
  assert (Hl2 : no_listener_of i w2).
  { unfold w2, observeEffect, no_listener_of.
    destruct (w_instances (run_effect i updateFocusableItems w1) !! i);
      simpl; rewrite run_effect_listeners; exact Hl. }
  assert (Hm2 : mounted_if_present i w2).
  { intros inst E2. unfold w2, observeEffect in E2.
    destruct (w_instances (run_effect i updateFocusableItems w1) !! i)
      as [inst1|] eqn:E1.
    - simpl in E2. rewrite lookup_insert_eq in E2. injection E2 as <-. simpl.
      eapply (mounted_if_present_registry i w1); [| exact Hm1 | exact E1].
      apply run_effect_registry.
    - congruence. }
  apply keydownEffect_consistent.
  - by apply run_effect_consistent.
  - by apply run_effect_no_listener.
  - eapply mounted_if_present_registry; [apply run_effect_registry | done].
Qed.

Lemma rerender_consistent i q w :
  consistent w → consistent (rerender i q w).
Proof.
  intros Hc. unfold rerender.
  destruct (w_instances w !! i) as [inst|] eqn:E; [| done].
  destruct (inst_mounted inst) eqn:Hmounted; [| done].
  set (p := inst_props inst).
  assert (Hm : mounted_if_present i w).
  { intros inst' E'. congruence. }
  set (w1 := if focus_deps_changed p q
             then run_effect i (focusCleanup p) w else w).
  assert (Hc1 : consistent w1).
  { unfold w1. destruct (focus_deps_changed p q);
      [by apply run_effect_consistent | done]. }
  assert (Hm1 : mounted_if_present i w1).
  { unfold w1. destruct (focus_deps_changed p q); [| done].
    eapply mounted_if_present_registry; [apply run_effect_registry | done]. }
  destruct (keydown_deps_changed p q).
  - destruct (keydownCleanup_consistent i w1 Hc1) as [Hc2 Hl2].
    assert (Hm2 : mounted_if_present i (keydownCleanup i w1)).
    { eapply mounted_if_present_registry;
        [apply keydownCleanup_registry | done]. }
    set (w2 := keydownCleanup i w1) in *.
    destruct (set_props_frame i q w2) as (Hl3 & Ho3 & Hr3).
    set (w3 := set_props i q w2) in *.
    assert (Hc3 : consistent w3) by by apply set_props_consistent.
    assert (Hno3 : no_listener_of i w3).
    { unfold no_listener_of. by rewrite Hl3. }
    assert (Hm3 : mounted_if_present i w3).
    { by eapply mounted_if_present_registry. }
    apply keydownEffect_consistent.
    + destruct (focus_deps_changed p q);
        [by apply run_effect_consistent | done].
    + destruct (focus_deps_changed p q);
        [by apply run_effect_no_listener | done].
    + destruct (focus_deps_changed p q); [| done].
      eapply mounted_if_present_registry; [apply run_effect_registry | done].
  - destruct (focus_deps_changed p q).
    + apply run_effect_consistent. by apply set_props_consistent.
    + by apply set_props_consistent.
Qed.

(** Taking the root out of the document changes the document only. *)
Lemma detachRoot_frame i w :
  w_listeners (detachRoot i w) = w_listeners w
  ∧ w_observers (detachRoot i w) = w_observers w
  ∧ w_instances (detachRoot i w) = w_instances w
  ∧ w_next (detachRoot i w) = w_next w
  ∧ w_uncaught (detachRoot i w) = w_uncaught w.
Proof.
  unfold detachRoot. destruct (w_instances w !! i) as [inst|]; [| done].
  by destruct (rootNode (inst_refs inst)).
Qed.

Lemma detachRoot_consistent i w :
  consistent w → consistent (detachRoot i w).
Proof.
  destruct (detachRoot_frame i w) as (Hl & Ho & Hi & _).
  apply consistent_frame; [done | done |]. unfold registry. by rewrite Hi.
Qed.

Lemma unmount_consistent i w :
  consistent w →
  consistent (unmount i w)
  ∧ no_listener_of i (unmount i w) ∧ no_observer_of i (unmount i w).
Proof.
  intros Hc. unfold unmount.
  destruct (w_instances w !! i) as [inst|] eqn:E.
  - destruct (inst_mounted inst) eqn:Hmounted.
    + destruct (observeCleanup_consistent i _ (detachRoot_consistent i w Hc))
        as [Hc1 Ho1].
      set (w1 := observeCleanup i (detachRoot i w)) in *.
      pose proof (run_effect_consistent i (focusCleanup (inst_props inst))
                    w1 Hc1) as Hc2.
      set (w2 := run_effect i (focusCleanup (inst_props inst)) w1) in *.
      destruct (keydownCleanup_consistent i w2 Hc2) as [Hc3 Hl3].
      apply retire_consistent; [done | done |].
      unfold no_observer_of, keydownCleanup.
      destruct (w_instances w2 !! i); simpl; unfold w2;
        rewrite run_effect_observers; exact Ho1.
    + split; [done |]. apply unmounted_owns_nothing; [done |].
      intros o l. rewrite registry_lookup, E. simpl. unfold handles.
      congruence.
  - split; [done |]. apply unmounted_owns_nothing; [done |].
    intros o l. by rewrite registry_lookup, E.
Qed.

Lemma notify_frame root (os : list Observer) w :
  let f := fun w o =>
             if Nat.eqb (o_target o) root
             then run_effect (o_owner o) updateFocusableItems w else w in
  w_listeners (foldl f w os) = w_listeners w
  ∧ w_observers (foldl f w os) = w_observers w
  ∧ registry (foldl f w os) = registry w.
Proof.
  intros f. revert w.
  induction os as [|o os IH]; intros w; [done |]. simpl.
  destruct (IH (f w o)) as (Hl & Ho & Hr). rewrite Hl, Ho, Hr.
  unfold f. destruct (Nat.eqb (o_target o) root); [| done].
  by rewrite run_effect_listeners, run_effect_observers, run_effect_registry.
Qed.

Lemma domChange_frame root items childList w :
  w_listeners (domChange root items childList w) = w_listeners w
  ∧ w_observers (domChange root items childList w) = w_observers w
  ∧ registry (domChange root items childList w) = registry w.
Proof.
  unfold domChange. destruct childList; [| done].
  match goal with
  | |- context [foldl _ ?w0 ?os] =>
      destruct (notify_frame root os w0) as (Hl & Ho & Hr)
  end.
  simpl in *. by rewrite Hl, Ho, Hr.
Qed.

Lemma step_consistent w e : consistent w → consistent (step w e).
Proof.
  intros Hc.
  destruct e as [i root p|i p|i|k shift|root items cl|a|x can]; simpl.
  - by apply mount_consistent.
  - by apply rerender_consistent.
  - by apply unmount_consistent.
  - done.
  - destruct (domChange_frame root items cl w) as (Hl & Ho & Hr).
    by apply (consistent_frame w).
  - done.
  - done.
Qed.

Lemma run_consistent es w : consistent w → consistent (run w es).
Proof.
  revert w. induction es as [|e es IH]; intros w Hc; [done |].
  apply IH. by apply step_consistent.
Qed.

Lemma empty_world_consistent d current : consistent (empty_world d current).
Proof. split; intros x Hin; simpl in Hin; by apply elem_of_nil in Hin. Qed.

Lemma deliver_forget i w acc l :
  l_owner l ≠ i → deliver (forget i w) acc l = deliver w acc l.
Proof.
  intros Hne. unfold deliver, forget. simpl.
  by rewrite lookup_delete_ne.
Qed.

Lemma foldl_deliver_forget i w (ls : list Listener) acc :
  (∀ l, l ∈ ls → l_owner l ≠ i) →
  foldl (deliver (forget i w)) acc ls = foldl (deliver w) acc ls.
Proof.
  revert acc. induction ls as [|l ls IH]; intros acc Hall; [done |]. simpl.
  rewrite deliver_forget by (apply Hall; left).
  apply IH. intros l' Hin. apply Hall. by right.
Qed.

Lemma deliver_errors w acc l : snd (deliver w acc l) = snd acc.
Proof.
  unfold deliver. simpl.
  match goal with
  | |- context [handleKeyPress ?b ?items ?s] =>
      pose proof (handleKeyPress_returns b items s) as Hr;
      destruct (handleKeyPress b items s) as [[u|e] s']
  end; [done | discriminate Hr].
Qed.

(** No keydown makes a handler throw. *)
Lemma dispatch_reports_no_error k shift w :
  w_uncaught (fst (dispatchKeydown k shift w)) = w_uncaught w.
Proof.
  unfold dispatchKeydown, dispatch_to. simpl.
  generalize (mkHandlerState (w_document w) (keydown k shift)).
  generalize (w_uncaught w) as errs.
  induction (w_listeners w) as [|l ls IH]; intros errs s; [done |].
  simpl. destruct (deliver w (s, errs) l) as [s' errs'] eqn:E.
  rewrite IH. change errs' with (snd (s', errs')).
  by rewrite <- E, deliver_errors.
Qed.

(** C9. Whatever happened to the instances before, once instance [i] is
    unmounted the window holds no keydown listener of it and no mutation
    observer of it is connected; and the outcome of any later keydown (the
    focus, the event's default flag, the errors) is what it would be had the
    instance never existed. *)
Theorem unmount_releases_listener_and_observer
    (d : Document) (current : RefId → option Element)
    (es : list Event) (i : InstId) :
  let w := run (empty_world d current) (es ++ [Unmount i]) in
  no_listener_of i w
  ∧ no_observer_of i w
  ∧ ∀ k shift,
      outcome (dispatchKeydown k shift w)
      = outcome (dispatchKeydown k shift (forget i w)).
Proof.
  intros w. subst w. unfold run. rewrite foldl_app. simpl.
  fold (run (empty_world d current) es).
  pose proof (run_consistent es _ (empty_world_consistent d current)) as Hc.
  destruct (unmount_consistent i _ Hc) as (_ & Hl & Ho).
  split; [exact Hl |]. split; [exact Ho |].
  intros k shift. unfold outcome, dispatchKeydown, dispatch_to. simpl.
  by rewrite foldl_deliver_forget.
Qed.

End Ownership.

(** While it is mounted, the instance does hold the keydown listener: a Tab
    on the last item is caught.  The unmount takes the items out of the
    document; when element 6 is attached again and focused, the same Tab is
    not caught. *)
Example listener_before_and_after_unmount :
  let p := FocusLock.mkProps None (Some true) (Some true) None None in
  let d := page (Some 1%nat) (fun _ => [5; 6]%nat) in
  let w := FocusLock.run (FocusLock.empty_world d (fun _ => None))
             [FocusLock.Mount 0%nat 10%nat p;
              FocusLock.UserFocus (Some 6%nat)] in
  let w' := FocusLock.run w [FocusLock.Unmount 0%nat;
                             FocusLock.CanFocus 6%nat true;
                             FocusLock.UserFocus (Some 6%nat)] in
  FocusLock.outcome (FocusLock.dispatchKeydown "Tab" false w)
  = (Some 5%nat, mkKeyboardEvent "Tab" false true, [])
  ∧ FocusLock.outcome (FocusLock.dispatchKeydown "Tab" false w')
    = (Some 6%nat, mkKeyboardEvent "Tab" false false, []).
Proof. vm_compute. done. Qed.

(** ** Return focus *)

(** With [autoFocus] left at its default the Modal's focus lock stores the
    element that had focus and gives it back on unmount. *)
Example return_focus_with_autofocus :
  let m := Modal.mkProps true None None None None None None None None in
  let p := Modal.focusLockProps m in
  let d := page (Some 1%nat) (fun _ => [5; 6]%nat) in
  let opened := FocusLock.run (FocusLock.empty_world d (fun _ => None))
                  [FocusLock.Mount 0%nat 10%nat p] in
  let closed := FocusLock.run opened [FocusLock.UserFocus (Some 6%nat);
                                      FocusLock.Unmount 0%nat] in
  activeElement (FocusLock.w_document opened) = Some 5%nat
  ∧ activeElement (FocusLock.w_document closed) = Some 1%nat.
Proof. vm_compute. done. Qed.

(** The same in the life of an instance: a Modal with [autoFocus] off and
    [returnFocus] at its default; element 1 has focus at mount, the user
    moves focus to element 5 inside the modal, then the lock unmounts.  A
    second lock is given a final focus ref that holds element 7.  In both
    cases nothing is stored at mount; removing the lock's subtree takes
    element 5 out of the document, focus falls to the body and nothing
    brings it to element 1 or element 7. *)
Example return_focus_lost_in_lifecycle :
  let m := Modal.mkProps true None None None (Some false) None None None
             None in
  let p := Modal.focusLockProps m in
  let d := page (Some 1%nat) (fun _ => [5; 6]%nat) in
  let opened := FocusLock.run (FocusLock.empty_world d (fun _ => None))
                  [FocusLock.Mount 0%nat 10%nat p] in
  let closed := FocusLock.run opened [FocusLock.UserFocus (Some 5%nat);
                                      FocusLock.Unmount 0%nat] in
  let q := FocusLock.mkProps None (Some false) (Some true) None
             (Some 0%nat) in
  let opened' := FocusLock.run (FocusLock.empty_world d (fun _ => Some 7%nat))
                   [FocusLock.Mount 0%nat 10%nat q] in
  let closed' := FocusLock.run opened' [FocusLock.UserFocus (Some 5%nat);
                                        FocusLock.Unmount 0%nat] in
  (FocusLock.flag (FocusLock.returnFocusOnClose p) = true
   ∧ FocusLock.finalFocusRef p = None
   ∧ activeElement (FocusLock.w_document opened) = Some 1%nat
   ∧ FocusLock.inst_refs <$> FocusLock.w_instances opened !! 0%nat
     = Some (FocusLock.mkRefs (Some 10%nat) (Some [5; 6]%nat) None)
   ∧ activeElement (FocusLock.w_document closed) = None)
  ∧ (FocusLock.inst_refs <$> FocusLock.w_instances opened' !! 0%nat
     = Some (FocusLock.mkRefs (Some 10%nat) (Some [5; 6]%nat) None)
     ∧ activeElement (FocusLock.w_document closed') = None).
Proof. vm_compute. done. Qed.

(** ** Escape dismissal *)

Section Escape.

Import Modal.

(** [onEscape] calls [onClose] exactly when Escape closing is on and the
    last overlay of the query is the element in [modalRef]. *)
Lemma onEscape_spec (closeOnEsc : bool) (modals : list Element)
    (ref : option Element) :
  onEscape closeOnEsc modals ref = true
  ↔ closeOnEsc = true ∧ ∃ e, last modals = Some e ∧ ref = Some e.
Proof.
  unfold onEscape. destruct closeOnEsc.
  - destruct (last modals) as [e|] eqn:Hlast.
    + rewrite (item_last _ _ Hlast). simpl.
      destruct ref as [x|]; simpl.
      * destruct (Nat.eqb_spec e x) as [->|Hne].
        -- split; [intros _ | done]. split; [done |]. by exists x.
        -- split; [done |]. intros (_ & y & Hy & Hx). congruence.
      * split; [done |]. intros (_ & y & _ & Hx). congruence.
    + apply last_None in Hlast as ->. simpl.
      split; [done |]. intros (_ & y & Hy & _). done.
  - split; [done |]. intros [Hc _]. done.
Qed.

(** C7. On an Escape keydown a mounted Modal calls its close callback
    exactly when Escape closing is on for it, its content is in the tree and
    its root is the last entry of the overlay query.  So an instance whose
    root is not the last entry ignores the key, an instance with Escape
    closing off ignores it, and of two instances with different roots at
    most one closes. *)
Theorem escape_closes_only_topmost (w : World) (i : InstId)
    (inst : Instance) :
  w_modals w !! i = Some inst →
  (closesOnEscape w i = true
   ↔ closeOnEsc_value (m_props inst) = true
     ∧ m_visible inst = true
     ∧ last (getOverlayElements w) = Some (m_root inst))
  ∧ (last (getOverlayElements w) ≠ Some (m_root inst) →
     closesOnEscape w i = false)
  ∧ (closeOnEsc_value (m_props inst) = false → closesOnEscape w i = false)
  ∧ (∀ j inst', w_modals w !! j = Some inst' →
       m_root inst' ≠ m_root inst →
       closesOnEscape w i = true → closesOnEscape w j = false).
Proof.
  intros E.
  assert (Hiff : ∀ k instk, w_modals w !! k = Some instk →
            closesOnEscape w k = true
            ↔ closeOnEsc_value (m_props instk) = true
              ∧ m_visible instk = true
              ∧ last (getOverlayElements w) = Some (m_root instk)).
  { intros k instk Ek.
    unfold closesOnEscape, closesOnKey, useKeyboardShortcut, keyListenersMap.
    rewrite Ek, lookup_singleton_eq, onEscape_spec.
    unfold modalRef. destruct (m_visible instk).
    - split.
      + intros (Hc & e & Hl & He). injection He as <-. done.
      + intros (Hc & _ & Hl). split; [done |]. by exists (m_root instk).
    - split.
      + intros (_ & e & _ & He). done.
      + intros (_ & Hf & _). done. }
  split; [by apply Hiff |].
  split; [| split].
  - intros Hne. apply not_true_is_false. rewrite (Hiff i inst E).
    intros (_ & _ & Hlast). done.
  - intros Hoff. apply not_true_is_false. rewrite (Hiff i inst E).
    intros (Hon & _). congruence.
  - intros j inst' Ej Hroot Hi. apply not_true_is_false.
    rewrite (Hiff j inst' Ej). apply (Hiff i inst E) in Hi.
    destruct Hi as (_ & _ & Hlast). intros (_ & _ & Hlast').
    congruence.
Qed.

(** C10. A Modal whose content is not in the tree has a null [modalRef]
    and never calls its close callback on Escape, whatever the overlay
    query returns and even with Escape closing on. *)
Theorem hidden_modal_ignores_escape (w : World) (i : InstId)
    (inst : Instance) :
  w_modals w !! i = Some inst →
  m_visible inst = false →
  modalRef inst = None
  ∧ closesOnEscape w i = false
  ∧ ∀ closeOnEsc modals, onEscape closeOnEsc modals (modalRef inst) = false.
Proof.
  intros E Hvis.
  assert (Href : modalRef inst = None) by (unfold modalRef; by rewrite Hvis).
  assert (Hoff : ∀ c modals, onEscape c modals None = false).
  { intros c modals. apply not_true_is_false. rewrite onEscape_spec.
    intros (_ & e & _ & He). done. }
  split; [done |]. split.
  - unfold closesOnEscape, closesOnKey, useKeyboardShortcut, keyListenersMap.
    rewrite E, lookup_singleton_eq, Href. apply Hoff.
  - intros c modals. rewrite Href. apply Hoff.
Qed.

End Escape.

(** The topmost of two stacked modals closes on Escape and the other one
    does not. *)
Lemma escape_closes_only_topmost_witness :
  Modal.w_modals Modal.two_stacked !! 1%nat
  = Some (Modal.mkInstance 11%nat
            (Modal.mkProps true None None None None None None None None) true)
  ∧ Modal.closesOnEscape Modal.two_stacked 1%nat = true
  ∧ Modal.closesOnEscape Modal.two_stacked 0%nat = false.
Proof.
  split; [vm_compute; reflexivity |].
  destruct (escape_closes_only_topmost Modal.two_stacked 1%nat
              (Modal.mkInstance 11%nat
                 (Modal.mkProps true None None None None None None None None)
                 true)) as (Hiff & _ & _ & Hothers);
    [vm_compute; reflexivity |].
  assert (Htop : Modal.closesOnEscape Modal.two_stacked 1%nat = true).
  { apply Hiff. vm_compute. repeat split; reflexivity. }
  split; [exact Htop |].
  apply (Hothers 0%nat
           (Modal.mkInstance 10%nat
              (Modal.mkProps true None None None None None None None None)
              true)); [vm_compute; reflexivity | simpl; lia | exact Htop].
Defined.

(** A closed Modal next to an open one, Escape closing on: the closed one
    does not call its close callback. *)
Lemma hidden_modal_ignores_escape_witness :
  let p := Modal.mkProps false (Some true) None None None None None None
             None in
  let w := Modal.run Modal.empty_world
             [Modal.MountModal 0%nat 10%nat p false;
              Modal.MountModal 1%nat 11%nat p true] in
  Modal.w_modals w !! 0%nat = Some (Modal.mkInstance 10%nat p false)
  ∧ Modal.m_visible (Modal.mkInstance 10%nat p false) = false
  ∧ Modal.closesOnEscape w 0%nat = false.
Proof.
  intros p w.
  split; [vm_compute; reflexivity |]. split; [reflexivity |].
  apply (hidden_modal_ignores_escape w 0%nat (Modal.mkInstance 10%nat p false));
    [vm_compute; reflexivity | reflexivity].
Defined.

(** ** Scroll lock *)

Section ScrollLock.

Import Modal.






Lemma scrollLock_many (lock visible : bool) (modals : list Element)
    (m : bool) :
  (2 ≤ length modals)%nat → scrollLockEffect lock visible modals m = m.
Proof.
  intros Hlen. unfold scrollLockEffect. destruct lock; [| done].
  destruct (Z.eqb_spec (Z.of_nat (length modals)) 1) as [|_]; [lia |].
  destruct (Z.eqb_spec (Z.of_nat (length modals)) 0) as [|_]; [lia |].
  by rewrite andb_false_r.
Qed.

Lemma run_scrollLock_overlays i w :
  w_overlays (run_scrollLock i w) = w_overlays w.
Proof. unfold run_scrollLock. by destruct (w_modals w !! i). Qed.


Lemma run_scrollLock_many i w :
  (2 ≤ length (w_overlays w))%nat →
  w_noScroll (run_scrollLock i w) = w_noScroll w.
Proof.
  intros Hlen. unfold run_scrollLock.
  destruct (w_modals w !! i) as [inst|]; [| done]. simpl.
  by apply scrollLock_many.
Qed.

(** *** A commit that changes several Modals *)

Lemma runEffects_cons i ids w :
  runEffects (i :: ids) w = runEffects ids (run_scrollLock i w).
Proof. done. Qed.

Lemma runEffects_overlays ids w :
  w_overlays (runEffects ids w) = w_overlays w.
Proof.
  revert w. induction ids as [|i ids IH]; intros w; [done |].
  rewrite runEffects_cons, IH. apply run_scrollLock_overlays.
Qed.


Lemma runEffects_many ids w :
  (2 ≤ length (w_overlays w))%nat →
  w_noScroll (runEffects ids w) = w_noScroll w.
Proof.
  revert w. induction ids as [|i ids IH]; intros w Hlen; [done |].
  rewrite runEffects_cons, IH by (by rewrite run_scrollLock_overlays).
  by apply run_scrollLock_many.
Qed.






Lemma renderChanges_snoc cs c w :
  renderChanges (cs ++ [c]) w = commitChange (renderChanges cs w) c.
Proof. unfold renderChanges. by rewrite foldl_app. Qed.

Lemma commitChange_noScroll acc c :
  w_noScroll (commitChange acc c).1 = w_noScroll acc.1.
Proof.
  destruct c as [i v]. unfold commitChange. simpl.
  destruct (w_modals acc.1 !! i) as [inst|]; [| done].
  destruct (_ || _); [done |]. by destruct v.
Qed.

Lemma renderChanges_noScroll cs w :
  w_noScroll (renderChanges cs w).1 = w_noScroll w.
Proof.
  induction cs as [|c cs IH] using rev_ind; [done |].
  by rewrite renderChanges_snoc, commitChange_noScroll.
Qed.

(** The render part of a commit changes no props. *)
Lemma commitChange_props (P : Props → Prop) acc c :
  (∀ i inst, w_modals acc.1 !! i = Some inst → P (m_props inst)) →
  ∀ i inst, w_modals (commitChange acc c).1 !! i = Some inst →
            P (m_props inst).
Proof.
  intros Hall. destruct c as [j v]. unfold commitChange. simpl.
  destruct (w_modals acc.1 !! j) as [old|] eqn:E; [| exact Hall].
  destruct (_ || _); [exact Hall |].
  intros i inst Hi.
  assert (Hi' : <[j := mkInstance (m_root old) (m_props old) v]>
                  (w_modals acc.1) !! i = Some inst) by (by destruct v).
  destruct (decide (j = i)) as [->|Hne].
  - rewrite lookup_insert_eq in Hi'. injection Hi' as <-. simpl.
    by apply (Hall i old).
  - rewrite lookup_insert_ne in Hi' by done. by apply (Hall i inst).
Qed.

Lemma renderChanges_props (P : Props → Prop) cs w :
  (∀ i inst, w_modals w !! i = Some inst → P (m_props inst)) →
  ∀ i inst, w_modals (renderChanges cs w).1 !! i = Some inst →
            P (m_props inst).
Proof.
  intros Hall. induction cs as [|c cs IH] using rev_ind; [exact Hall |].
  rewrite renderChanges_snoc. by apply commitChange_props.
Qed.


(** A commit with a single change is the change of one Modal. *)
Lemma commitVisible_single i visible w :
  commitVisible [(i, visible)] w = setContentVisible i visible w.
Proof.
  unfold commitVisible, renderChanges, setContentVisible, commitChange.
  simpl. destruct (w_modals w !! i) as [inst|]; [| done].
  rewrite orb_false_r. by destruct (Bool.eqb visible (m_visible inst)).
Qed.

Lemma commitVisible_overlays cs w :
  w_overlays (commitVisible cs w) = w_overlays (renderChanges cs w).1.
Proof. unfold commitVisible. apply runEffects_overlays. Qed.






End ScrollLock.

(** Two stacked scroll-locking modals: the marker is absent while both are
    closed, present from the moment the first is visible, still present when
    only one of them is left, and absent once both are closed, in either
    closing order. *)
Example stacked_marker_history :
  ∀ closeTopFirst,
    map Modal.w_noScroll
      (Modal.history Modal.empty_world
         (Modal.stacked_open_close closeTopFirst))
    = [false; false; true; true; true; false].
Proof. intros []; vm_compute; reflexivity. Qed.



(** A scroll-locking Modal unmounted by its parent while open: the effect
    has no cleanup, the overlay is gone and the marker stays on the body. *)
Example unmount_while_open_strands_marker :
  let p := Modal.mkProps true None None None None None None None None in
  let w := Modal.run Modal.empty_world
             [Modal.MountModal 0%nat 10%nat p false;
              Modal.SetContentVisible 0%nat true;
              Modal.UnmountModal 0%nat] in
  Modal.w_overlays w = [] ∧ Modal.w_noScroll w = true
  ∧ Modal.w_modals w = ∅.
Proof. vm_compute. done. Qed.

(** A scroll-locking Modal and one with [lockScroll] off on the same page:
    the locking one opens first and closes first, the other closes last and
    its effect does nothing, so the marker stays on the body with no
    overlay attached. *)
Example mixed_page_strands_marker :
  let p := Modal.mkProps true None None None None None None None None in
  let q := Modal.mkProps true None (Some false) None None None None None
             None in
  let w := Modal.run Modal.empty_world
             [Modal.MountModal 0%nat 10%nat p false;
              Modal.MountModal 1%nat 11%nat q false;
              Modal.SetContentVisible 0%nat true;
              Modal.SetContentVisible 1%nat true;
              Modal.SetContentVisible 0%nat false;
              Modal.SetContentVisible 1%nat false] in
  Modal.w_overlays w = [] ∧ Modal.w_noScroll w = true.
Proof. vm_compute. done. Qed.

(** ** Transition timing *)

Section Transition.

Import MountTransition Modal.

(** The hook alone, with delay [T]: opening attaches the content at once
    and reaches the opened state after exactly [T] milliseconds. *)
Lemma useMountTransition_opens_after_delay (T dt : Z) :
  0 < T → 0 ≤ dt < T →
  let s := useMountTransition true T initial in
  isContentVisible s = true
  ∧ isTransitionClassApplied (advance dt s) = false
  ∧ isTransitionClassApplied (advance T s) = true.
Proof.
  intros HT Hdt s. subst s. unfold useMountTransition, advance. simpl.
  destruct (Z.leb_spec T 0) as [|_]; [lia |]. simpl.
  destruct (Z.leb_spec T dt) as [|_]; [lia |].
  destruct (Z.leb_spec T T) as [_|]; [| lia]. done.
Qed.

(** With delay 0 the hook reaches the opened state at once. *)
Lemma useMountTransition_opens_at_once :
  isTransitionClassApplied (useMountTransition true 0 initial) = true.
Proof. reflexivity. Qed.

(** Closing keeps the content attached for [T] milliseconds, then detaches
    it. *)
Lemma useMountTransition_detaches_after_delay (T dt : Z) :
  0 < T → 0 ≤ dt < T →
  let s := useMountTransition false T (mkState Open true None) in
  isContentVisible (advance dt s) = true
  ∧ isContentVisible (advance T s) = false.
Proof.
  intros HT Hdt s. subst s. unfold useMountTransition, advance. simpl.
  destruct (Z.leb_spec T 0) as [|_]; [lia |]. simpl.
  destruct (Z.leb_spec T dt) as [|_]; [lia |].
  destruct (Z.leb_spec T T) as [_|]; [| lia]. done.
Qed.

(** The Modal hands the hook the constant: the [transitionDuration] prop
    has no influence on the transition state. *)
Lemma mountTransition_ignores_transitionDuration (p : Props)
    (D : option Z) (s : State) :
  mountTransition
    (mkProps (isOpen p) (closeOnEsc p) (lockScroll p) (trapFocus p)
       (autoFocus p) (returnFocus p) D (initialFocusRef p)
       (finalFocusRef p)) s
  = mountTransition p s.
Proof. reflexivity. Qed.

(** C2, where the code departs from it.  Whatever [transitionDuration] the
    Modal is configured with, the style variable carries that value, but the
    transition state follows the constant: the content is attached as soon
    as [isOpen] becomes true, the opened state is not reached at any time
    before 200 ms and is reached at 200 ms; on closing, the content is still
    attached at any time before 200 ms and detaches at 200 ms. *)
Theorem transition_delay_is_the_constant (D : option Z) (dt : Z) :
  0 ≤ dt < TRANSITION_DURATION →
  let m := fun o => Modal.mkProps o None None None None None D None None in
  let entering := mountTransition (m true) initial in
  let opened := advance TRANSITION_DURATION entering in
  let closing := mountTransition (m false) opened in
  cssTransitionDuration (m true) = default TRANSITION_DURATION D
  ∧ isContentVisible entering = true
  ∧ isTransitionClassApplied (advance dt entering) = false
  ∧ isTransitionClassApplied opened = true
  ∧ isContentVisible (advance dt closing) = true
  ∧ isContentVisible (advance TRANSITION_DURATION closing) = false.
Proof.
  intros Hdt m entering opened closing.
  subst m entering opened closing.
  unfold mountTransition, cssTransitionDuration, TRANSITION_DURATION,
    useMountTransition, advance in *.
  simpl.
  destruct (Z.leb_spec 200 dt) as [|_]; [lia |].
  repeat split; reflexivity.
Qed.

End Transition.

(** A Modal configured with [transitionDuration = 0]: the style variable is
    0 ms, yet right after [isOpen] became true the opened state is not
    reached, and right after it became false the content is still
    attached. *)
Lemma transition_delay_is_the_constant_witness :
  let m := fun o => Modal.mkProps o None None None None None (Some 0) None
                      None in
  let entering := Modal.mountTransition (m true) MountTransition.initial in
  let opened := MountTransition.advance 200 entering in
  let closing := Modal.mountTransition (m false) opened in
  0 ≤ 0 < Modal.TRANSITION_DURATION
  ∧ Modal.cssTransitionDuration (m true) = 0
  ∧ MountTransition.isTransitionClassApplied
      (MountTransition.advance 0 entering) = false
  ∧ MountTransition.isContentVisible (MountTransition.advance 0 closing)
    = true.
Proof.
  intros m entering opened closing.
  split; [unfold Modal.TRANSITION_DURATION; lia |].
  destruct (transition_delay_is_the_constant (Some 0) 0)
    as (H1 & _ & H2 & _ & H3 & _); [unfold Modal.TRANSITION_DURATION; lia |].
  split; [exact H1 |]. split; [exact H2 | exact H3].
Defined.

(** * Further properties of the code *)

(** ** The Tab handler in general *)

Section TabHandlerGeneral.

Import FocusLock.

(** [document.activeElement === item] holds exactly when there is an active
    element and the item exists and is that element. *)
Lemma strict_eq_last (a : option Element) (items : list Element) :
  strict_eq (of_nullable a) (item items (Z.of_nat (length items) - 1)) = true
  ↔ is_Some a ∧ a = last items.
Proof.
  destruct (last items) as [e|] eqn:Hlast.
  - rewrite (item_last _ _ Hlast), strict_eq_elem, bool_decide_eq_true.
    split; [intros ->; by split; [eexists |] | by intros [_ ?]].
  - apply last_None in Hlast as ->. rewrite item_empty, strict_eq_undefined.
    split; [done |]. intros [[x ->] Hx]. done.
Qed.

Lemma strict_eq_head (a : option Element) (items : list Element) :
  strict_eq (of_nullable a) (item items 0) = true
  ↔ is_Some a ∧ a = items !! 0%nat.
Proof.
  destruct (items !! 0%nat) as [e|] eqn:Hhead.
  - rewrite (item_first _ _ Hhead), strict_eq_elem, bool_decide_eq_true.
    split; [intros ->; by split; [eexists |] | by intros [_ ?]].
  - destruct items; [| done]. rewrite item_empty, strict_eq_undefined.
    split; [done |]. intros [[x ->] Hx]. done.
Qed.

(** The handler for any key and any lock state, as one equation. *)
Lemma press_equation (locked : bool) (items : list Element) (k : string)
    (shift : bool) (d : Document) :
  let n := Z.of_nat (length items) in
  let s0 := untouched k shift d in
  let s1 := mkHandlerState d (mkKeyboardEvent k shift true) in
  press locked (Some items) k shift d =
    if locked && String.eqb k "Tab" then
      if n =? 1 then (Normal tt, s1)
      else if negb shift
              && strict_eq (of_nullable (activeElement d)) (item items (n - 1))
      then method_focus hs_on_document (item items 0) s1
      else if shift
              && strict_eq (of_nullable (activeElement d)) (item items 0)
      then method_focus hs_on_document (item items (n - 1)) s1
      else (Normal tt, s0)
    else (Normal tt, s0).
Proof.
  intros n s0 s1. subst n s0 s1.
  unfold press, handleKeyPress, Js.bind, Js.get, getActiveElement, untouched;
    simpl.
  destruct (locked && String.eqb k "Tab"); [| done].
  destruct (Z.of_nat (length items) =? 1); [done |].
  unfold Js.bind, Js.get, Js.ret; simpl.
  destruct (negb shift && _); [done |].
  destruct (shift && _); done.
Qed.

(** A state in which the default was suppressed and focus moved to [e]. *)
Lemma press_empty (locked : bool) (k : string) (shift : bool)
    (d : Document) :
  press locked (Some []) k shift d = (Normal tt, untouched k shift d).
Proof.
  rewrite press_equation. rewrite !item_empty, !strict_eq_undefined.
  rewrite !andb_false_r. simpl. by destruct (locked && String.eqb k "Tab").
Qed.

Lemma press_nonempty (locked : bool) (x : Element) (rest : list Element)
    (lastItem : Element) (k : string) (shift : bool) (d : Document) :
  last (x :: rest) = Some lastItem →
  let s0 := untouched k shift d in
  let moved e := mkHandlerState (focusElement e d)
                   (mkKeyboardEvent k shift true) in
  press locked (Some (x :: rest)) k shift d =
    if locked && String.eqb k "Tab" then
      if bool_decide (rest = []) then
        (Normal tt, mkHandlerState d (mkKeyboardEvent k shift true))
      else if negb shift && bool_decide (activeElement d = Some lastItem)
      then (Normal tt, moved x)
      else if shift && bool_decide (activeElement d = Some x)
      then (Normal tt, moved lastItem)
      else (Normal tt, s0)
    else (Normal tt, s0).
Proof.
  intros Hlast s0 moved. subst s0 moved. rewrite press_equation.
  rewrite (item_first (x :: rest) x eq_refl), (item_last _ _ Hlast),
    !strict_eq_elem.
  destruct (locked && String.eqb k "Tab"); [| done].
  destruct rest as [|y rest].
  - done.
  - rewrite (bool_decide_eq_false_2 (y :: rest = [])) by done.
    destruct (Z.eqb_spec (Z.of_nat (length (x :: y :: rest))) 1) as [H|_];
      [simpl in H; lia |].
    done.
Qed.

Lemma last_cons_is_Some (x : Element) (rest : list Element) :
  ∃ e, last (x :: rest) = Some e.
Proof.
  destruct (last (x :: rest)) as [e|] eqn:E; [by exists e |].
  by apply last_None in E.
Qed.

(** X2. The handler suppresses the default action of a keydown exactly when
    the lock is on, the key is Tab, and either the list has one item, or
    shift is not held and the active element is the last item, or shift is
    held and the active element is the first item. *)
Theorem default_prevented_iff (locked : bool) (items : list Element)
    (k : string) (shift : bool) (d : Document) :
  prevented (press locked (Some items) k shift d) = true
  ↔ locked = true ∧ k = "Tab"
    ∧ (length items = 1%nat
       ∨ (shift = false ∧ is_Some (activeElement d)
          ∧ activeElement d = last items)
       ∨ (shift = true ∧ is_Some (activeElement d)
          ∧ activeElement d = items !! 0%nat)).
Proof.
  destruct items as [|x rest].
  { rewrite press_empty. simpl. split; [done |].
    intros (_ & _ & [H|[(_ & [e He] & H)|(_ & [e He] & H)]]);
      simpl in *; congruence. }
  destruct (last_cons_is_Some x rest) as [l Hlast].
  rewrite (press_nonempty locked x rest l k shift d Hlast), Hlast. simpl.
  destruct locked; simpl; [| split; [done | by intros [? _]]].
  destruct (String.eqb_spec k "Tab") as [->|Hk];
    [| split; [done | by intros (_ & ? & _)]].
  case_bool_decide as Hrest.
  { subst rest. simpl. split; [intros _ | done]. repeat split. by left. }
  assert (Hlen : length (x :: rest) ≠ 1%nat).
  { destruct rest; [done | simpl; lia]. }
  destruct shift; simpl; case_bool_decide as Ha; simpl.
  - split; [intros _ | done]. repeat split. right. right.
    rewrite Ha. repeat split; by eexists.
  - split; [done |].
    intros (_ & _ & [H|[(H & _)|(_ & _ & H)]]); simpl in *; congruence.
  - split; [intros _ | done]. repeat split. right. left.
    rewrite Ha. repeat split; by eexists.
  - split; [done |].
    intros (_ & _ & [H|[(_ & _ & H)|(H & _)]]); simpl in *; congruence.
Qed.

(** X3. Whatever the key, the lock state and the document, the handler
    either leaves the focus where it is or moves it to a member of its own
    focusable list, and it moves it only together with suppressing the
    default action. *)
Theorem focus_stays_in_list (locked : bool) (items : list Element)
    (k : string) (shift : bool) (d : Document) :
  let r := press locked (Some items) k shift d in
  focused r = activeElement d
  ∨ ∃ e, focused r = Some e ∧ e ∈ items ∧ prevented r = true.
Proof.
  intros r. subst r. destruct items as [|x rest].
  { rewrite press_empty. by left. }
  destruct (last_cons_is_Some x rest) as [l Hlast].
  rewrite (press_nonempty locked x rest l k shift d Hlast).
  destruct (locked && String.eqb k "Tab"); [| by left].
  case_bool_decide; [by left |].
  assert (Hl : l ∈ x :: rest).
  { rewrite last_lookup in Hlast. by eapply list_elem_of_lookup_2. }
  unfold focused, prevented.
  destruct (negb shift && _).
  { simpl. rewrite activeElement_focusElement. simpl.
    destruct (canFocus d x); [| by left].
    right. exists x. split; [done |]. split; [by left | done]. }
  destruct (shift && _); [| by left].
  simpl. rewrite activeElement_focusElement. simpl.
  destruct (canFocus d l); [| by left].
  right. exists l. by repeat split.
Qed.

(** X4. With at least two items and the lock on, and a first and a last
    item that can take focus, the two wrap-arounds undo each other: from the
    last item a Tab moves focus to the first item, and a shift-Tab pressed
    then moves it back to the last item. *)
Theorem wrap_round_trip (items : list Element)
    (firstItem lastItem : Element) (d : Document) :
  (2 ≤ length items)%nat →
  items !! 0%nat = Some firstItem →
  last items = Some lastItem →
  activeElement d = Some lastItem →
  canFocus d firstItem = true →
  canFocus d lastItem = true →
  let forward := press true (Some items) "Tab" false d in
  let back := press true (Some items) "Tab" true
                (hs_document (snd forward)) in
  focused forward = Some firstItem
  ∧ focused back = Some lastItem
  ∧ prevented forward = true ∧ prevented back = true.
Proof.
  intros Hlen Hfirst Hlast Hactive Hcf Hcl forward back. subst forward back.
  destruct items as [|x rest]; [simpl in Hlen; lia |].
  injection Hfirst as ->.
  assert (Hrest : rest ≠ []) by (destruct rest; [simpl in Hlen; lia | done]).
  assert (Hfx : focusElement firstItem d = setActive (Some firstItem) d).
  { unfold focusElement. by rewrite Hcf. }
  assert (Hf : press true (Some (firstItem :: rest)) "Tab" false d
               = (Normal tt, mkHandlerState (setActive (Some firstItem) d)
                               (mkKeyboardEvent "Tab" false true))).
  { rewrite (press_nonempty true firstItem rest lastItem "Tab" false d Hlast).
    cbn [andb negb String.eqb Ascii.eqb Bool.eqb].
    by rewrite (bool_decide_eq_false_2 _ Hrest),
         (bool_decide_eq_true_2 _ Hactive), Hfx. }
  rewrite Hf. cbn [snd hs_document].
  assert (Hfl : focusElement lastItem (setActive (Some firstItem) d)
                = setActive (Some lastItem) d).
  { unfold focusElement. simpl. by rewrite Hcl. }
  assert (Hb : press true (Some (firstItem :: rest)) "Tab" true
                 (setActive (Some firstItem) d)
               = (Normal tt, mkHandlerState (setActive (Some lastItem) d)
                               (mkKeyboardEvent "Tab" true true))).
  { rewrite (press_nonempty true firstItem rest lastItem "Tab" true _ Hlast).
    cbn [andb negb String.eqb Ascii.eqb Bool.eqb].
    rewrite (bool_decide_eq_false_2 _ Hrest).
    by rewrite (bool_decide_eq_true_2
                  (activeElement (setActive (Some firstItem) d)
                   = Some firstItem) eq_refl), Hfl. }
  rewrite Hb. done.
Qed.

End TabHandlerGeneral.

(** Three items that can all take focus, focus on the last: Tab then
    shift-Tab ends on the last item again. *)
Lemma wrap_round_trip_witness :
  let items := [1; 2; 3]%nat in
  let d := page (Some 3%nat) (fun _ => items) in
  let forward := FocusLock.press true (Some items) "Tab" false d in
  let back := FocusLock.press true (Some items) "Tab" true
                (FocusLock.hs_document (snd forward)) in
  (2 ≤ length items)%nat
  ∧ items !! 0%nat = Some 1%nat
  ∧ last items = Some 3%nat
  ∧ activeElement d = Some 3%nat
  ∧ canFocus d 1%nat = true
  ∧ canFocus d 3%nat = true
  ∧ FocusLock.focused forward = Some 1%nat
  ∧ FocusLock.focused back = Some 3%nat.
Proof.
  intros items d forward back.
  split; [simpl; lia |]. do 5 (split; [reflexivity |]).
  destruct (wrap_round_trip items 1%nat 3%nat d) as (H1 & H2 & _);
    [simpl; lia | reflexivity | reflexivity | reflexivity | reflexivity
    | reflexivity |].
  split; [exact H1 | exact H2].
Defined.

(** ** Registrations over the life of the instances *)

Section RegistrationRefinement.

Import FocusLock Registration.

Lemma keeps_root_update : keeps_root updateFocusableItems.
Proof.
  intros s. unfold updateFocusableItems, Js.bind, Js.get. simpl.
  destruct (rootNode (es_refs s)) eqn:E; unfold Js.modify, Js.ret; simpl;
    by rewrite ?E.
Qed.

Lemma keeps_root_focusEffect p current : keeps_root (focusEffect p current).
Proof.
  intros s. unfold focusEffect.
  destruct (flag (autoFocusOnMount p)); [| done].
  unfold Js.bind, Js.get, set_returnFocusNode, Js.modify. simpl.
  destruct (initialFocusRef p) as [r|]; simpl.
  - by destruct (current r).
  - destruct (focusableItems (es_refs s)) as [items|]; [| done].
    by destruct (item items 0).
Qed.

Lemma keeps_root_focusCleanup p : keeps_root (focusCleanup p).
Proof.
  intros s. unfold focusCleanup.
  destruct (flag (returnFocusOnClose p)); [| done].
  unfold Js.bind, Js.get. simpl.
  by destruct (returnFocusNode (es_refs s)).
Qed.

Lemma abs_run_effect i m w :
  keeps_root m → abs (run_effect i m w) = abs w.
Proof.
  intros Hm. unfold run_effect, abs.
  destruct (w_instances w !! i) as [inst|] eqn:E; [| done]. simpl.
  f_equal. rewrite fmap_insert. apply insert_id.
  rewrite lookup_fmap, E. simpl. f_equal. unfold summary. simpl.
  by rewrite Hm.
Qed.

Lemma abs_set_instance i inst w :
  abs (set_instance i inst w) = a_insert i (summary inst) (abs w).
Proof. unfold set_instance, a_insert, abs. simpl. by rewrite fmap_insert. Qed.

Lemma abs_observeEffect i w :
  abs (observeEffect i w) = a_observeEffect i (abs w).
Proof.
  unfold observeEffect.
  rewrite <- (abs_run_effect i updateFocusableItems w keeps_root_update).
  set (w1 := run_effect i updateFocusableItems w).
  unfold a_observeEffect, abs. simpl. rewrite lookup_fmap.
  destruct (w_instances w1 !! i) as [inst|] eqn:E; [| done]. simpl.
  by rewrite fmap_insert.
Qed.

Lemma abs_observeCleanup i w :
  abs (observeCleanup i w) = a_observeCleanup i (abs w).
Proof.
  unfold observeCleanup, a_observeCleanup, abs. simpl. rewrite lookup_fmap.
  by destruct (w_instances w !! i).
Qed.

Lemma abs_keydownEffect i w :
  abs (keydownEffect i w) = a_keydownEffect i (abs w).
Proof.
  unfold keydownEffect, a_keydownEffect, abs. simpl. rewrite lookup_fmap.
  destruct (w_instances w !! i) as [inst|]; [| done]. simpl.
  by rewrite fmap_insert.
Qed.

Lemma abs_keydownCleanup i w :
  abs (keydownCleanup i w) = a_keydownCleanup i (abs w).
Proof.
  unfold keydownCleanup, a_keydownCleanup, abs. simpl. rewrite lookup_fmap.
  by destruct (w_instances w !! i).
Qed.

Lemma abs_set_props i q w :
  abs (set_props i q w) = a_set_lock i (isLocked_value q) (abs w).
Proof.
  unfold set_props, a_set_lock. unfold abs at 2. simpl. rewrite lookup_fmap.
  destruct (w_instances w !! i) as [inst|]; [| done]. simpl.
  by rewrite abs_set_instance.
Qed.

Lemma abs_retire i w : abs (retire i w) = a_retire i (abs w).
Proof.
  unfold retire, a_retire. unfold abs at 2. simpl. rewrite lookup_fmap.
  destruct (w_instances w !! i) as [inst|]; [| done]. simpl.
  by rewrite abs_set_instance.
Qed.

Lemma abs_mount i root p w :
  abs (mount i root p w) = a_mount i root (isLocked_value p) (abs w).
Proof.
  unfold mount, a_mount. unfold abs at 2. simpl. rewrite lookup_fmap.
  destruct (w_instances w !! i) as [inst|]; [done |]. simpl.
  rewrite abs_keydownEffect, abs_run_effect, abs_observeEffect,
    abs_set_instance by apply keeps_root_focusEffect.
  done.
Qed.

Lemma abs_rerender i q w :
  abs (rerender i q w) = a_rerender i (isLocked_value q) (abs w).
Proof.
  unfold rerender, a_rerender. unfold abs at 2. simpl. rewrite lookup_fmap.
  destruct (w_instances w !! i) as [inst|]; [| done]. simpl.
  destruct (inst_mounted inst); [| done].
  unfold keydown_deps_changed.
  destruct (negb (Bool.eqb (isLocked_value (inst_props inst))
                    (isLocked_value q)));
    destruct (focus_deps_changed (inst_props inst) q);
    rewrite ?abs_keydownEffect, ?abs_run_effect, ?abs_set_props,
      ?abs_keydownCleanup, ?abs_run_effect
      by first [apply keeps_root_focusEffect | apply keeps_root_focusCleanup];
    done.
Qed.

Lemma abs_unmount i w : abs (unmount i w) = a_unmount i (abs w).
Proof.
  unfold unmount, a_unmount. unfold abs at 2. simpl. rewrite lookup_fmap.
  destruct (w_instances w !! i) as [inst|]; [| done]. simpl.
  destruct (inst_mounted inst); [| done].
  rewrite abs_retire, abs_keydownCleanup, abs_run_effect,
    abs_observeCleanup by apply keeps_root_focusCleanup.
  do 3 f_equal. unfold abs.
  destruct (detachRoot_frame i w) as (-> & -> & -> & -> & _). done.
Qed.

Lemma abs_notify root (os : list Observer) w :
  abs (foldl (fun w o =>
                if Nat.eqb (o_target o) root
                then run_effect (o_owner o) updateFocusableItems w else w)
         w os) = abs w.
Proof.
  revert w. induction os as [|o os IH]; intros w; [done |]. simpl.
  rewrite IH. destruct (Nat.eqb (o_target o) root); [| done].
  apply abs_run_effect, keeps_root_update.
Qed.

Lemma abs_step w e : abs (step w e) = a_step (abs w) e.
Proof.
  destruct e as [i root p|i p|i|k shift|root items cl|a|x can]; simpl.
  - apply abs_mount.
  - apply abs_rerender.
  - apply abs_unmount.
  - done.
  - unfold domChange. destruct cl; [| done]. by rewrite abs_notify.
  - done.
  - done.
Qed.

Lemma abs_run es w : abs (run w es) = foldl a_step (abs w) es.
Proof.
  revert w. induction es as [|e es IH]; intros w; [done |]. simpl.
  unfold run in IH. by rewrite IH, abs_step.
Qed.

End RegistrationRefinement.

Section RegistrationInvariant.

Import FocusLock Registration.

Lemma nodup_filter_ids {A} (f : A → nat) (P : A → Prop)
    `{∀ x, Decision (P x)} (ls : list A) :
  NoDup (f <$> ls) → NoDup (f <$> filter P ls).
Proof.
  intros Hnd. eapply sublist_NoDup; [exact Hnd |].
  apply fmap_sublist, sublist_filter.
Qed.

Lemma nodup_snoc_fresh {A} (f : A → nat) (ls : list A) (x : A) (n : nat) :
  NoDup (f <$> ls) → (∀ l, l ∈ ls → (f l < n)%nat) → (n ≤ f x)%nat →
  NoDup (f <$> (ls ++ [x])).
Proof.
  intros Hnd Hlt Hx. rewrite fmap_app. apply NoDup_app.
  split; [done |]. split; [| apply NoDup_singleton].
  intros y Hy Hin. apply list_elem_of_singleton in Hin as ->.
  apply list_elem_of_fmap in Hy as (l & Hfl & Hl).
  specialize (Hlt l Hl). lia.
Qed.

Lemma same_id_same {A} (f : A → nat) (ls : list A) (x y : A) :
  NoDup (f <$> ls) → x ∈ ls → y ∈ ls → f x = f y → x = y.
Proof.
  induction ls as [|z ls IH]; intros Hnd Hx Hy Hf;
    [by apply elem_of_nil in Hx |].
  rewrite fmap_cons in Hnd. apply NoDup_cons in Hnd as [Hz Hnd].
  apply elem_of_cons in Hx as [->|Hx]; apply elem_of_cons in Hy as [->|Hy].
  - done.
  - exfalso. apply Hz. rewrite Hf. by apply list_elem_of_fmap_2.
  - exfalso. apply Hz. rewrite <- Hf. by apply list_elem_of_fmap_2.
  - by apply IH.
Qed.

Lemma a_mount_fresh i root locked a :
  a_sum a !! i = None →
  a_mount i root locked a
  = mkAbs (a_listeners a ++ [mkListener (S (a_next a)) i locked])
      (a_observers a ++ [mkObserver (a_next a) i root])
      (S (S (a_next a)))
      (<[i := mkSummary true (a_next a) (S (a_next a)) locked (Some root)]>
         (a_sum a)).
Proof.
  intros E. unfold a_mount. rewrite E.
  unfold a_observeEffect, a_insert. simpl. rewrite lookup_insert_eq. simpl.
  unfold a_keydownEffect. simpl. rewrite lookup_insert_eq. simpl.
  by rewrite !insert_insert_eq.
Qed.

Lemma a_rerender_same i a s :
  a_sum a !! i = Some s → a_rerender i (s_locked s) a = a.
Proof.
  intros E. unfold a_rerender. rewrite E.
  destruct (s_mounted s); [| done].
  rewrite Bool.eqb_reflx. simpl. unfold a_set_lock, a_insert. rewrite E.
  destruct a as [ls os n sm]. simpl in *. f_equal.
  apply insert_id. rewrite E. by destruct s.
Qed.

Lemma a_rerender_swap i locked a s :
  a_sum a !! i = Some s → s_mounted s = true → s_locked s ≠ locked →
  a_rerender i locked a
  = mkAbs (filter (fun l => l_id l ≠ s_listener s) (a_listeners a)
             ++ [mkListener (a_next a) i locked])
      (a_observers a) (S (a_next a))
      (<[i := mkSummary true (s_observer s) (a_next a) locked (s_root s)]>
         (a_sum a)).
Proof.
  intros E Hm Hne. unfold a_rerender. rewrite E, Hm.
  assert (Hneq : negb (Bool.eqb (s_locked s) locked) = true).
  { destruct (s_locked s), locked; done. }
  rewrite Hneq.
  unfold a_keydownCleanup. rewrite E.
  unfold a_set_lock, a_insert. simpl. rewrite E. simpl.
  unfold a_keydownEffect. simpl. rewrite lookup_insert_eq. simpl.
  by rewrite insert_insert_eq, Hm.
Qed.

Lemma a_unmount_mounted i a s :
  a_sum a !! i = Some s → s_mounted s = true →
  a_unmount i a
  = mkAbs (filter (fun l => l_id l ≠ s_listener s) (a_listeners a))
      (filter (fun o => o_id o ≠ s_observer s) (a_observers a))
      (a_next a)
      (<[i := mkSummary false (s_observer s) (s_listener s) (s_locked s)
                None]> (a_sum a)).
Proof.
  intros E Hm. unfold a_unmount. rewrite E, Hm.
  unfold a_observeCleanup. rewrite E.
  unfold a_keydownCleanup. simpl. rewrite E.
  unfold a_retire, a_insert. simpl. by rewrite E.
Qed.

(** A listener that survives the removal of instance [i]'s listener
    belongs to another instance. *)
Lemma other_listener a i s l :
  tidy a → a_sum a !! i = Some s →
  l ∈ a_listeners a → l_id l ≠ s_listener s → l_owner l ≠ i.
Proof.
  intros Ht E Hin Hid Heq.
  destruct (tidy_listeners a Ht l Hin) as (s0 & E0 & _ & Hl & _).
  rewrite Heq, E in E0. injection E0 as <-. done.
Qed.

Lemma other_observer a i s o :
  tidy a → a_sum a !! i = Some s →
  o ∈ a_observers a → o_id o ≠ s_observer s → o_owner o ≠ i.
Proof.
  intros Ht E Hin Hid Heq.
  destruct (tidy_observers a Ht o Hin) as (s0 & E0 & _ & Ho & _).
  rewrite Heq, E in E0. injection E0 as <-. done.
Qed.

(** The listener and the observer of another mounted instance survive the
    removal of instance [i]'s. *)
Lemma listener_survives a i s j sj :
  tidy a → a_sum a !! i = Some s → s_mounted s = true →
  a_sum a !! j = Some sj → s_mounted sj = true → j ≠ i →
  mkListener (s_listener sj) j (s_locked sj)
  ∈ filter (fun l => l_id l ≠ s_listener s) (a_listeners a).
Proof.
  intros Ht E Hm Ej Hmj Hne.
  destruct (tidy_mounted a Ht i s E Hm) as [Hli _].
  destruct (tidy_mounted a Ht j sj Ej Hmj) as [Hlj _].
  apply list_elem_of_filter. split; [| done]. simpl. intros Hid.
  pose proof (same_id_same l_id _ _ _ (tidy_listeners_nodup a Ht) Hlj Hli Hid)
    as Heq.
  by injection Heq.
Qed.

Lemma observer_survives a i s j sj root :
  tidy a → a_sum a !! i = Some s → s_mounted s = true →
  a_sum a !! j = Some sj → j ≠ i →
  mkObserver (s_observer sj) j root ∈ a_observers a →
  mkObserver (s_observer sj) j root
  ∈ filter (fun o => o_id o ≠ s_observer s) (a_observers a).
Proof.
  intros Ht E Hm Ej Hne Hoj.
  destruct (tidy_mounted a Ht i s E Hm) as [_ (r & _ & Hoi)].
  apply list_elem_of_filter. split; [| done]. simpl. intros Hid.
  pose proof (same_id_same o_id _ _ _ (tidy_observers_nodup a Ht) Hoj Hoi Hid)
    as Heq.
  by injection Heq.
Qed.

Lemma tidy_mount i root locked a : tidy a → tidy (a_mount i root locked a).
Proof.
  intros Ht. destruct (a_sum a !! i) as [s|] eqn:E.
  { unfold a_mount. by rewrite E. }
  rewrite (a_mount_fresh i root locked a E).
  assert (Hown : ∀ j s, a_sum a !! j = Some s → j ≠ i) by congruence.
  constructor; simpl.
  - intros l Hin. apply elem_of_app in Hin as [Hin|Hin].
    + pose proof (tidy_listener_ids a Ht l Hin). lia.
    + apply list_elem_of_singleton in Hin as ->. simpl. lia.
  - intros o Hin. apply elem_of_app in Hin as [Hin|Hin].
    + pose proof (tidy_observer_ids a Ht o Hin). lia.
    + apply list_elem_of_singleton in Hin as ->. simpl. lia.
  - apply (nodup_snoc_fresh l_id _ _ (a_next a));
      [apply Ht | apply Ht | simpl; lia].
  - apply (nodup_snoc_fresh o_id _ _ (a_next a));
      [apply Ht | apply Ht | simpl; lia].
  - intros l Hin. apply elem_of_app in Hin as [Hin|Hin].
    + destruct (tidy_listeners a Ht l Hin) as (s & Es & Hs).
      exists s. by rewrite lookup_insert_ne by (symmetry; eauto).
    + apply list_elem_of_singleton in Hin as ->. simpl.
      rewrite lookup_insert_eq. by eexists.
  - intros o Hin. apply elem_of_app in Hin as [Hin|Hin].
    + destruct (tidy_observers a Ht o Hin) as (s & Es & Hs).
      exists s. by rewrite lookup_insert_ne by (symmetry; eauto).
    + apply list_elem_of_singleton in Hin as ->. simpl.
      rewrite lookup_insert_eq. by eexists.
  - intros j s Ej Hm. destruct (decide (i = j)) as [->|Hne].
    + rewrite lookup_insert_eq in Ej. injection Ej as <-. simpl. split.
      * apply elem_of_app. right. by apply list_elem_of_singleton.
      * exists root. split; [done |]. apply elem_of_app. right.
        by apply list_elem_of_singleton.
    + rewrite lookup_insert_ne in Ej by done.
      destruct (tidy_mounted a Ht j s Ej Hm) as [Hl (r & Hr & Ho)]. split.
      * apply elem_of_app. by left.
      * exists r. split; [done |]. apply elem_of_app. by left.
Qed.

Lemma tidy_rerender i locked a : tidy a → tidy (a_rerender i locked a).
Proof.
  intros Ht. destruct (a_sum a !! i) as [s|] eqn:E;
    [| unfold a_rerender; by rewrite E].
  destruct (s_mounted s) eqn:Hm; [| unfold a_rerender; by rewrite E, Hm].
  destruct (decide (s_locked s = locked)) as [<-|Hne].
  { by rewrite (a_rerender_same i a s E). }
  rewrite (a_rerender_swap i locked a s E Hm Hne).
  constructor; simpl.
  - intros l Hin. apply elem_of_app in Hin as [Hin|Hin].
    + apply list_elem_of_filter in Hin as [_ Hin].
      pose proof (tidy_listener_ids a Ht l Hin). lia.
    + apply list_elem_of_singleton in Hin as ->. simpl. lia.
  - intros o Hin. pose proof (tidy_observer_ids a Ht o Hin). lia.
  - apply (nodup_snoc_fresh l_id _ _ (a_next a)); [| | simpl; lia].
    + apply nodup_filter_ids, Ht.
    + intros l Hin. apply list_elem_of_filter in Hin as [_ Hin].
      by apply Ht.
  - apply Ht.
  - intros l Hin. apply elem_of_app in Hin as [Hin|Hin].
    + apply list_elem_of_filter in Hin as [Hid Hin].
      destruct (tidy_listeners a Ht l Hin) as (s0 & Es & Hs).
      exists s0. rewrite lookup_insert_ne; [done |].
      symmetry. by eapply other_listener.
    + apply list_elem_of_singleton in Hin as ->. simpl.
      rewrite lookup_insert_eq. by eexists.
  - intros o Hin.
    destruct (tidy_observers a Ht o Hin) as (s0 & Es & Hm0 & Ho & Hr).
    destruct (decide (i = o_owner o)) as [Heq|Hneq].
    + rewrite <- Heq, E in Es. injection Es as <-.
      rewrite <- Heq, lookup_insert_eq. by eexists.
    + exists s0. by rewrite lookup_insert_ne.
  - intros j sj Ej Hmj. destruct (decide (i = j)) as [->|Hneq].
    + rewrite lookup_insert_eq in Ej. injection Ej as <-. simpl. split.
      * apply elem_of_app. right. by apply list_elem_of_singleton.
      * destruct (tidy_mounted a Ht j s E Hm) as [_ Hobs]. exact Hobs.
    + rewrite lookup_insert_ne in Ej by done.
      destruct (tidy_mounted a Ht j sj Ej Hmj) as [_ Hobs].
      split; [| exact Hobs].
      apply elem_of_app. left. by eapply listener_survives.
Qed.

Lemma tidy_unmount i a : tidy a → tidy (a_unmount i a).
Proof.
  intros Ht. destruct (a_sum a !! i) as [s|] eqn:E;
    [| unfold a_unmount; by rewrite E].
  destruct (s_mounted s) eqn:Hm; [| unfold a_unmount; by rewrite E, Hm].
  rewrite (a_unmount_mounted i a s E Hm).
  constructor; simpl.
  - intros l Hin. apply list_elem_of_filter in Hin as [_ Hin]. by apply Ht.
  - intros o Hin. apply list_elem_of_filter in Hin as [_ Hin]. by apply Ht.
  - apply nodup_filter_ids, Ht.
  - apply nodup_filter_ids, Ht.
  - intros l Hin. apply list_elem_of_filter in Hin as [Hid Hin].
    destruct (tidy_listeners a Ht l Hin) as (s0 & Es & Hs).
    exists s0. rewrite lookup_insert_ne; [done |].
    symmetry. by eapply other_listener.
  - intros o Hin. apply list_elem_of_filter in Hin as [Hid Hin].
    destruct (tidy_observers a Ht o Hin) as (s0 & Es & Hs).
    exists s0. rewrite lookup_insert_ne; [done |].
    symmetry. by eapply other_observer.
  - intros j sj Ej Hmj. destruct (decide (i = j)) as [->|Hneq].
    + rewrite lookup_insert_eq in Ej. injection Ej as <-. done.
    + rewrite lookup_insert_ne in Ej by done.
      destruct (tidy_mounted a Ht j sj Ej Hmj) as [_ (r & Hr & Ho)]. split.
      * by eapply listener_survives.
      * exists r. split; [done |]. by eapply observer_survives.
Qed.

Lemma tidy_step a e : tidy a → tidy (a_step a e).
Proof.
  intros Ht. destruct e; simpl;
    auto using tidy_mount, tidy_rerender, tidy_unmount.
Qed.

Lemma tidy_empty d current : tidy (abs (empty_world d current)).
Proof.
  constructor; simpl; try (intros x Hin; by apply elem_of_nil in Hin);
    try apply NoDup_nil_2.
  intros i s E. by rewrite fmap_empty, lookup_empty in E.
Qed.

(** Every world reached from the empty one has its registrations in
    order. *)
Lemma tidy_run d current es : tidy (abs (run (empty_world d current) es)).
Proof.
  rewrite abs_run. generalize (tidy_empty d current).
  generalize (abs (empty_world d current)).
  induction es as [|e es IH]; intros a Ht; [done |]. simpl.
  apply IH. by apply tidy_step.
Qed.

End RegistrationInvariant.

Section Registered.

Import FocusLock Registration.

Lemma filter_none {A} (P : A → Prop) `{∀ x, Decision (P x)} (ls : list A) :
  (∀ y, y ∈ ls → ¬ P y) → filter P ls = [].
Proof.
  induction ls as [|z ls IH]; intros Hno; [done |].
  rewrite filter_cons_False by (apply Hno; left).
  apply IH. intros y Hy. apply Hno. by right.
Qed.

Lemma filter_unique {A} (f : A → nat) (P : A → Prop) `{∀ x, Decision (P x)}
    (ls : list A) (x : A) :
  NoDup (f <$> ls) → x ∈ ls → P x →
  (∀ y, y ∈ ls → P y → f y = f x) →
  filter P ls = [x].
Proof.
  induction ls as [|z ls IH]; intros Hnd Hx HP Hall;
    [by apply elem_of_nil in Hx |].
  rewrite fmap_cons in Hnd. apply NoDup_cons in Hnd as [Hz Hnd].
  apply elem_of_cons in Hx as [->|Hx].
  - rewrite filter_cons_True by done. f_equal.
    apply filter_none. intros y Hy HPy. apply Hz.
    rewrite <- (Hall y (list_elem_of_further _ _ _ Hy) HPy).
    by apply list_elem_of_fmap_2.
  - assert (Hnz : ¬ P z).
    { intros HPz. apply Hz. rewrite (Hall z (list_elem_of_here _ _) HPz).
      by apply list_elem_of_fmap_2. }
    rewrite filter_cons_False by done.
    apply IH; try done. intros y Hy. apply Hall. by right.
Qed.

(** X5. In every world reached by mounting, re-rendering and unmounting
    locks, pressing keys, changing the DOM and moving focus, a mounted lock
    has exactly one keydown listener on the window, and that listener
    carries the [isLocked] of the lock's last render. *)
Theorem one_current_listener_per_lock
    (d : Document) (current : RefId → option Element) (es : list Event)
    (i : InstId) (inst : Instance) :
  let w := run (empty_world d current) es in
  w_instances w !! i = Some inst →
  inst_mounted inst = true →
  filter (fun l => l_owner l = i) (w_listeners w)
  = [mkListener (inst_listener inst) i (isLocked_value (inst_props inst))].
Proof.
  intros w E Hm. pose proof (tidy_run d current es) as Ht. fold w in Ht.
  assert (Es : a_sum (abs w) !! i = Some (summary inst)).
  { unfold abs. simpl. by rewrite lookup_fmap, E. }
  destruct (tidy_mounted _ Ht i _ Es Hm) as [Hl _].
  apply (filter_unique l_id); try done.
  - apply (tidy_listeners_nodup _ Ht).
  - intros y Hy Hown.
    destruct (tidy_listeners _ Ht y Hy) as (s0 & E0 & _ & Hid & _).
    rewrite Hown, Es in E0. injection E0 as <-. by rewrite <- Hid.
Qed.

Lemma run_effect_other i j m w :
  i ≠ j → w_instances (run_effect j m w) !! i = w_instances w !! i.
Proof.
  intros Hne. unfold run_effect.
  destruct (w_instances w !! j); [| done]. simpl.
  by rewrite lookup_insert_ne.
Qed.

Lemma run_update_document j w :
  w_document (run_effect j updateFocusableItems w) = w_document w.
Proof.
  unfold run_effect. destruct (w_instances w !! j) as [inst|]; [| done].
  simpl. unfold updateFocusableItems, Js.bind, Js.get. simpl.
  by destruct (rootNode (inst_refs inst)).
Qed.

Lemma run_update_items i w inst root :
  w_instances w !! i = Some inst →
  rootNode (inst_refs inst) = Some root →
  ∃ inst', w_instances (run_effect i updateFocusableItems w) !! i
           = Some inst'
           ∧ rootNode (inst_refs inst') = Some root
           ∧ focusableItems (inst_refs inst')
             = Some (querySelectorAll (w_document w) root).
Proof.
  intros E Hroot. unfold run_effect. rewrite E. simpl.
  rewrite lookup_insert_eq. eexists. split; [done |].
  unfold updateFocusableItems, Js.bind, Js.get. simpl. rewrite Hroot.
  simpl. by rewrite Hroot.
Qed.

(** The callbacks of the observers of [root], run in turn. *)
Lemma notify_refreshes i root (items : list Element) (os : list Observer) w :
  querySelectorAll (w_document w) root = items →
  (∃ inst, w_instances w !! i = Some inst
           ∧ rootNode (inst_refs inst) = Some root
           ∧ ((∃ o, o ∈ os ∧ o_owner o = i ∧ o_target o = root)
              ∨ focusableItems (inst_refs inst) = Some items)) →
  ∃ inst, w_instances
            (foldl (fun w o =>
                      if Nat.eqb (o_target o) root
                      then run_effect (o_owner o) updateFocusableItems w
                      else w) w os) !! i = Some inst
          ∧ focusableItems (inst_refs inst) = Some items.
Proof.
  revert w. induction os as [|o os IH]; intros w Hdoc (inst & E & Hroot & H).
  { destruct H as [(o & Ho & _)|H]; [by apply elem_of_nil in Ho |].
    by exists inst. }
  simpl. apply IH.
  - destruct (Nat.eqb (o_target o) root); [| done].
    by rewrite run_update_document.
  - destruct (Nat.eqb_spec (o_target o) root) as [Ht|Ht].
    + destruct (decide (o_owner o = i)) as [Ho|Ho].
      * rewrite Ho.
        destruct (run_update_items i w inst root E Hroot)
          as (inst' & E' & Hroot' & Hitems).
        exists inst'. split; [done |]. split; [done |]. right.
        by rewrite Hitems, Hdoc.
      * exists inst. rewrite run_effect_other by done.
        split; [done |]. split; [done |].
        destruct H as [(o' & Ho' & Hown & Htar)|H]; [| by right].
        left. exists o'. apply elem_of_cons in Ho' as [->|Ho']; [done |].
        done.
    + exists inst. split; [done |]. split; [done |].
      destruct H as [(o' & Ho' & Hown & Htar)|H]; [| by right].
      left. exists o'. apply elem_of_cons in Ho' as [->|Ho']; [done |].
      done.
Qed.

Lemma notify_other i root (os : list Observer) w :
  (∀ o, o ∈ os → o_owner o ≠ i) →
  w_instances
    (foldl (fun w o =>
              if Nat.eqb (o_target o) root
              then run_effect (o_owner o) updateFocusableItems w
              else w) w os) !! i
  = w_instances w !! i.
Proof.
  revert w. induction os as [|o os IH]; intros w Hall; [done |]. simpl.
  rewrite IH by (intros o' Ho'; apply Hall; by right).
  destruct (Nat.eqb (o_target o) root); [| done].
  apply run_effect_other. intros Heq. by apply (Hall o); [left |].
Qed.

(** X6. A mounted lock keeps its list of focusable items in step with
    changes to the direct child list of its root: after such a change the
    list is the new query result.  A change elsewhere under the root (or to
    attributes) is not observed and leaves the stored list as it was. *)
Theorem child_list_change_refreshes_items
    (d : Document) (current : RefId → option Element) (es : list Event)
    (i : InstId) (inst : Instance) (root : Element) (items : list Element) :
  let w := run (empty_world d current) es in
  w_instances w !! i = Some inst →
  inst_mounted inst = true →
  rootNode (inst_refs inst) = Some root →
  (focusableItems ∘ inst_refs) <$> w_instances (domChange root items true w) !! i
  = Some (Some items)
  ∧ (focusableItems ∘ inst_refs)
      <$> w_instances (domChange root items false w) !! i
    = Some (focusableItems (inst_refs inst)).
Proof.
  intros w E Hm Hroot. split.
  - pose proof (tidy_run d current es) as Ht. fold w in Ht.
    assert (Es : a_sum (abs w) !! i = Some (summary inst)).
    { unfold abs. simpl. by rewrite lookup_fmap, E. }
    destruct (tidy_mounted _ Ht i _ Es Hm) as [_ (r & Hr & Ho)].
    simpl in Hr, Ho. rewrite Hroot in Hr. injection Hr as <-.
    unfold domChange.
    match goal with
    | |- context [foldl ?f ?w0 ?os] =>
        destruct (notify_refreshes i root items os w0) as (inst' & E' & Hi)
    end.
    + simpl. by rewrite Nat.eqb_refl.
    + exists inst. split; [done |]. split; [done |]. left.
      eexists. split; [exact Ho |]. done.
    + rewrite E'. simpl. by rewrite Hi.
  - unfold domChange. simpl. by rewrite E.
Qed.

(** X7. Once a lock is unmounted no change to the DOM, observed or not,
    touches its refs any more: its mutation observer no longer calls
    back. *)
Theorem no_refresh_after_unmount
    (d : Document) (current : RefId → option Element) (es : list Event)
    (i : InstId) (root : Element) (items : list Element) (childList : bool) :
  let w := run (empty_world d current) (es ++ [Unmount i]) in
  w_instances (domChange root items childList w) !! i = w_instances w !! i.
Proof.
  intros w. subst w. unfold run. rewrite foldl_app. simpl.
  fold (run (empty_world d current) es).
  pose proof (run_consistent es _ (empty_world_consistent d current)) as Hc.
  destruct (unmount_consistent i _ Hc) as (_ & _ & Ho).
  unfold domChange. destruct childList; [| done].
  rewrite notify_other; [done | exact Ho].
Qed.

End Registered.

(** A lock mounted with the default [isLocked] and then re-rendered with
    [isLocked = false]: one listener is left, and it carries [false]. *)
Lemma one_current_listener_per_lock_witness :
  let p := FocusLock.mkProps None (Some true) (Some true) None None in
  let q := FocusLock.mkProps (Some false) (Some true) (Some true) None
             None in
  let d := page (Some 1%nat) (fun _ => [5; 6]%nat) in
  let w := FocusLock.run (FocusLock.empty_world d (fun _ => None))
             [FocusLock.Mount 0%nat 10%nat p; FocusLock.Rerender 0%nat q] in
  let inst := FocusLock.mkInstance
                (FocusLock.mkRefs (Some 10%nat) (Some [5; 6]%nat)
                   (Some 1%nat)) q true 0%nat 2%nat in
  FocusLock.w_instances w !! 0%nat = Some inst
  ∧ FocusLock.inst_mounted inst = true
  ∧ filter (fun l => FocusLock.l_owner l = 0%nat) (FocusLock.w_listeners w)
    = [FocusLock.mkListener 2%nat 0%nat false].
Proof.
  intros p q d w inst.
  split; [vm_compute; reflexivity |]. split; [reflexivity |].
  apply (one_current_listener_per_lock d (fun _ => None)
           [FocusLock.Mount 0%nat 10%nat p; FocusLock.Rerender 0%nat q]
           0%nat inst); [vm_compute; reflexivity | reflexivity].
Defined.

(** A mounted lock whose root gets a new direct child: the stored list is
    the new query result. *)
Lemma child_list_change_refreshes_items_witness :
  let p := FocusLock.mkProps None (Some true) (Some true) None None in
  let d := page (Some 1%nat) (fun _ => [5; 6]%nat) in
  let w := FocusLock.run (FocusLock.empty_world d (fun _ => None))
             [FocusLock.Mount 0%nat 10%nat p] in
  let inst := FocusLock.mkInstance
                (FocusLock.mkRefs (Some 10%nat) (Some [5; 6]%nat)
                   (Some 1%nat)) p true 0%nat 1%nat in
  FocusLock.w_instances w !! 0%nat = Some inst
  ∧ FocusLock.inst_mounted inst = true
  ∧ FocusLock.rootNode (FocusLock.inst_refs inst) = Some 10%nat
  ∧ (FocusLock.focusableItems ∘ FocusLock.inst_refs)
      <$> FocusLock.w_instances
            (FocusLock.domChange 10%nat [5; 6; 7]%nat true w) !! 0%nat
    = Some (Some [5; 6; 7]%nat).
Proof.
  intros p d w inst.
  split; [vm_compute; reflexivity |]. split; [reflexivity |].
  split; [reflexivity |].
  apply (child_list_change_refreshes_items d (fun _ => None)
           [FocusLock.Mount 0%nat 10%nat p] 0%nat inst 10%nat
           [5; 6; 7]%nat); [vm_compute; reflexivity | reflexivity
                           | reflexivity].
Defined.

(** ** Nothing throws *)

Section NeverThrows.

Import FocusLock.

Lemma updateFocusableItems_returns s :
  completes (fst (updateFocusableItems s)) = true.
Proof.
  unfold updateFocusableItems, Js.bind, Js.get. simpl.
  by destruct (rootNode (es_refs s)).
Qed.

Lemma focusEffect_returns p current s :
  completes (fst (focusEffect p current s)) = true.
Proof.
  unfold focusEffect. destruct (flag (autoFocusOnMount p)); [| done].
  unfold Js.bind, Js.get, set_returnFocusNode, Js.modify. simpl.
  destruct (initialFocusRef p) as [r|]; simpl.
  - by destruct (current r).
  - destruct (focusableItems (es_refs s)) as [items|]; [| done].
    by destruct (item items 0).
Qed.

Lemma focusCleanup_returns_normally p s :
  completes (fst (focusCleanup p s)) = true.
Proof.
  unfold focusCleanup. destruct (flag (returnFocusOnClose p)); [| done].
  unfold Js.bind, Js.get. simpl.
  by destruct (returnFocusNode (es_refs s)).
Qed.

Lemma run_effect_uncaught i m w :
  (∀ s, completes (fst (m s)) = true) →
  w_uncaught (run_effect i m w) = w_uncaught w.
Proof.
  intros Hm. unfold run_effect.
  destruct (w_instances w !! i) as [inst|]; [| done]. simpl.
  specialize (Hm (mkEffectState (w_document w) (inst_refs inst))).
  by destruct (fst (m _)).
Qed.

Lemma observeEffect_uncaught i w :
  w_uncaught (observeEffect i w) = w_uncaught w.
Proof.
  unfold observeEffect.
  pose proof (run_effect_uncaught i updateFocusableItems w
                updateFocusableItems_returns) as H.
  by destruct (w_instances (run_effect i updateFocusableItems w) !! i).
Qed.

Lemma observeCleanup_uncaught i w :
  w_uncaught (observeCleanup i w) = w_uncaught w.
Proof. unfold observeCleanup. by destruct (w_instances w !! i). Qed.

Lemma keydownEffect_uncaught i w :
  w_uncaught (keydownEffect i w) = w_uncaught w.
Proof. unfold keydownEffect. by destruct (w_instances w !! i). Qed.

Lemma keydownCleanup_uncaught i w :
  w_uncaught (keydownCleanup i w) = w_uncaught w.
Proof. unfold keydownCleanup. by destruct (w_instances w !! i). Qed.

Lemma set_props_uncaught i q w :
  w_uncaught (set_props i q w) = w_uncaught w.
Proof. unfold set_props. by destruct (w_instances w !! i). Qed.

Lemma retire_uncaught i w : w_uncaught (retire i w) = w_uncaught w.
Proof. unfold retire. by destruct (w_instances w !! i). Qed.

Lemma mount_uncaught i root p w :
  w_uncaught (mount i root p w) = w_uncaught w.
Proof.
  unfold mount. destruct (w_instances w !! i); [done |].
  rewrite keydownEffect_uncaught, run_effect_uncaught, observeEffect_uncaught
    by apply focusEffect_returns.
  done.
Qed.

Lemma rerender_uncaught i q w :
  w_uncaught (rerender i q w) = w_uncaught w.
Proof.
  unfold rerender. destruct (w_instances w !! i) as [inst|]; [| done].
  destruct (inst_mounted inst); [| done].
  destruct (keydown_deps_changed (inst_props inst) q);
    destruct (focus_deps_changed (inst_props inst) q);
    rewrite ?keydownEffect_uncaught, ?run_effect_uncaught,
      ?set_props_uncaught, ?keydownCleanup_uncaught, ?run_effect_uncaught
      by first [apply focusEffect_returns
               | apply focusCleanup_returns_normally];
    done.
Qed.

Lemma unmount_uncaught i w : w_uncaught (unmount i w) = w_uncaught w.
Proof.
  unfold unmount. destruct (w_instances w !! i) as [inst|]; [| done].
  destruct (inst_mounted inst); [| done].
  rewrite retire_uncaught, keydownCleanup_uncaught, run_effect_uncaught,
    observeCleanup_uncaught by apply focusCleanup_returns_normally.
  by destruct (detachRoot_frame i w) as (_ & _ & _ & _ & ->).
Qed.

Lemma notify_uncaught root (os : list Observer) w :
  w_uncaught
    (foldl (fun w o =>
              if Nat.eqb (o_target o) root
              then run_effect (o_owner o) updateFocusableItems w
              else w) w os)
  = w_uncaught w.
Proof.
  revert w. induction os as [|o os IH]; intros w; [done |]. simpl.
  rewrite IH. destruct (Nat.eqb (o_target o) root); [| done].
  apply run_effect_uncaught, updateFocusableItems_returns.
Qed.

Lemma step_uncaught w e : w_uncaught (step w e) = w_uncaught w.
Proof.
  destruct e as [i root p|i p|i|k shift|root items cl|a|x can]; simpl.
  - apply mount_uncaught.
  - apply rerender_uncaught.
  - apply unmount_uncaught.
  - apply dispatch_reports_no_error.
  - unfold domChange. destruct cl; [| done]. by rewrite notify_uncaught.
  - done.
  - done.
Qed.

(** X1. No code of the focus lock ever throws: the Tab handler returns
    normally for every lock state, list, event and document, and no
    sequence of mounts, re-renders, unmounts, key presses, DOM changes and
    focus moves leaves an uncaught error. *)
Theorem focus_lock_never_throws :
  (∀ locked items s, returned (handleKeyPress locked items s) = true)
  ∧ ∀ d current es, w_uncaught (run (empty_world d current) es) = [].
Proof.
  split; [apply handleKeyPress_returns |].
  intros d current es.
  change [] with (w_uncaught (empty_world d current)).
  generalize (empty_world d current).
  induction es as [|e es IH]; intros w; [done |]. simpl.
  unfold run in IH. by rewrite IH, step_uncaught.
Qed.

End NeverThrows.

(** ** Capture and return of focus *)

Section FocusRoundTrip.

Import FocusLock.

Variable current : RefId → option Element.


(** X9. With [autoFocusOnMount], an initial focus ref that holds an element
    takes precedence over the focusable list: [focus()] is called on that
    element and not on an item of the list.  The element gets focus when it
    can take focus, whether or not it is in the list; when it cannot, focus
    stays where it was, and the list is not tried. *)
Theorem initial_focus_ref_takes_precedence (p : Props) (s : EffectState)
    (r : RefId) (e : Element) :
  flag (autoFocusOnMount p) = true →
  initialFocusRef p = Some r →
  current r = Some e →
  focus_after (focusEffect p current s)
  = after_focus_call (Some e) (es_document s)
  ∧ (canFocus (es_document s) e = true →
     focus_after (focusEffect p current s) = Some e)
  ∧ (canFocus (es_document s) e = false →
     focus_after (focusEffect p current s) = activeElement (es_document s))
  ∧ returned (focusEffect p current s) = true
  ∧ focusableItems (es_refs (snd (focusEffect p current s)))
    = focusableItems (es_refs s).
Proof.
  intros Hauto Hinit Hcur.
  assert (H : focus_after (focusEffect p current s)
              = after_focus_call (Some e) (es_document s)
              ∧ returned (focusEffect p current s) = true
              ∧ focusableItems (es_refs (snd (focusEffect p current s)))
                = focusableItems (es_refs s)).
  { unfold focusEffect. rewrite Hauto.
    unfold Js.bind, Js.get, set_returnFocusNode, Js.modify, focus_after,
      returned. simpl.
    rewrite Hinit. simpl. rewrite Hcur. simpl.
    by rewrite activeElement_focusElement. }
  destruct H as (Hf & Hr & Hi).
  split; [exact Hf |]. split; [| split; [| by split]].
  - intros Hcan. rewrite Hf. simpl. by rewrite Hcan.
  - intros Hcan. rewrite Hf. simpl. by rewrite Hcan.
Qed.

(** X10. The Modal never hands its [initialFocusRef] and [finalFocusRef]
    on to its focus lock: whatever they hold, with [autoFocus] on the lock
    calls [focus()] on the first item of its stored list (focus goes there
    when that item can take focus and stays otherwise, or when there is no
    item), and the return target is the element that had focus before. *)
Theorem modal_ignores_focus_refs (m : Modal.Props) (s : EffectState) :
  default true (Modal.autoFocus m) = true →
  let r := focusEffect (Modal.focusLockProps m) current s in
  focus_after r = first_or_unchanged s
  ∧ returnFocusNode (es_refs (snd r)) = activeElement (es_document s)
  ∧ (∀ e items, focusableItems (es_refs s) = Some (e :: items) →
                canFocus (es_document s) e = true →
                focus_after r = Some e).
Proof.
  intros Hauto r. subst r.
  assert (H : focus_after (focusEffect (Modal.focusLockProps m) current s)
              = first_or_unchanged s
              ∧ returnFocusNode
                  (es_refs (snd (focusEffect (Modal.focusLockProps m)
                                   current s)))
                = activeElement (es_document s)).
  { unfold focusEffect, Modal.focusLockProps. simpl. rewrite Hauto. simpl.
    unfold Js.bind, Js.get, set_returnFocusNode, Js.modify, focus_after,
      first_or_unchanged. simpl.
    destruct (focusableItems (es_refs s)) as [[|x items]|]; simpl;
      rewrite ?item_empty, ?activeElement_focusElement; simpl;
      by destruct (activeElement (es_document s)). }
  destruct H as [Hf Hn]. split; [exact Hf |]. split; [exact Hn |].
  intros e items Hitems Hcan. rewrite Hf. unfold first_or_unchanged.
  rewrite Hitems. simpl. by rewrite Hcan.
Qed.

End FocusRoundTrip.


(** An initial focus ref holding element 9, which is not in the focusable
    list [5; 6] but can take focus: element 9 gets focus. *)
Lemma initial_focus_ref_takes_precedence_witness :
  let p := FocusLock.mkProps None (Some true) None (Some 0%nat) None in
  let s := FocusLock.mkEffectState
             (page (Some 1%nat) (fun _ => [5; 6]%nat))
             (FocusLock.mkRefs (Some 10%nat) (Some [5; 6]%nat) None) in
  FocusLock.flag (FocusLock.autoFocusOnMount p) = true
  ∧ FocusLock.initialFocusRef p = Some 0%nat
  ∧ canFocus (FocusLock.es_document s) 9%nat = true
  ∧ FocusLock.focus_after
      (FocusLock.focusEffect p (fun _ => Some 9%nat) s) = Some 9%nat.
Proof.
  intros p s. do 3 (split; [reflexivity |]).
  destruct (initial_focus_ref_takes_precedence (fun _ => Some 9%nat) p s
              0%nat 9%nat) as (_ & H & _); [reflexivity | reflexivity
                                           | reflexivity |].
  apply H. reflexivity.
Defined.

(** A Modal given an initial focus ref that holds element 9: its lock still
    focuses element 5, the first focusable item. *)
Lemma modal_ignores_focus_refs_witness :
  let m := Modal.mkProps true None None None None None None (Some 0%nat)
             (Some 1%nat) in
  let s := FocusLock.mkEffectState
             (page (Some 1%nat) (fun _ => [5; 6]%nat))
             (FocusLock.mkRefs (Some 10%nat) (Some [5; 6]%nat) None) in
  default true (Modal.autoFocus m) = true
  ∧ canFocus (FocusLock.es_document s) 5%nat = true
  ∧ FocusLock.focus_after
      (FocusLock.focusEffect (Modal.focusLockProps m) (fun _ => Some 9%nat) s)
    = Some 5%nat.
Proof.
  intros m s. split; [reflexivity |]. split; [reflexivity |].
  destruct (modal_ignores_focus_refs (fun _ => Some 9%nat) m s)
    as (_ & _ & H); [reflexivity |].
  apply (H 5%nat [6%nat]); reflexivity.
Defined.

(** ** Scroll lock and Escape in general *)

Section ModalGeneral.

Import Modal ModalTraces.

(** X11. While two or more overlays are attached the no-scroll marker is
    out of reach: no mount, no change of visibility and no change of props
    of any Modal, scroll-locking or not, that leaves at least two overlays
    attached changes the marker. *)
Theorem marker_frozen_with_two_overlays (w : World) (e : Event) :
  (2 ≤ length (w_overlays (step w e)))%nat →
  w_noScroll (step w e) = w_noScroll w.
Proof.
  destruct e as [i root p visible|i visible|i p|i|cs]; simpl.
  - unfold mountModal. destruct (w_modals w !! i); [done |].
    rewrite run_scrollLock_overlays. intros Hlen.
    rewrite run_scrollLock_many by done. by destruct visible.
  - unfold setContentVisible.
    destruct (w_modals w !! i) as [inst|]; [| done].
    destruct (Bool.eqb visible (m_visible inst)); [done |].
    rewrite run_scrollLock_overlays. intros Hlen.
    rewrite run_scrollLock_many by done. by destruct visible.
  - unfold setProps. destruct (w_modals w !! i) as [inst|]; [| done].
    destruct (Bool.eqb _ _); [done |].
    rewrite run_scrollLock_overlays. intros Hlen.
    by rewrite run_scrollLock_many.
  - unfold unmountModal. destruct (w_modals w !! i) as [inst|]; [| done].
    by destruct (m_visible inst).
  - rewrite commitVisible_overlays. intros Hlen. unfold commitVisible.
    rewrite runEffects_many by done. apply renderChanges_noScroll.
Qed.

Lemma none_lock_insert i inst w :
  lockScroll_value (m_props inst) = false →
  none_lock w →
  ∀ j inst', <[i := inst]> (w_modals w) !! j = Some inst' →
             lockScroll_value (m_props inst') = false.
Proof.
  intros Hlock Hall j inst' E.
  destruct (decide (i = j)) as [->|Hne].
  - rewrite lookup_insert_eq in E. by injection E as <-.
  - rewrite lookup_insert_ne in E by done. by eapply Hall.
Qed.

Lemma run_scrollLock_off i inst w :
  w_modals w !! i = Some inst →
  lockScroll_value (m_props inst) = false →
  run_scrollLock i w = w.
Proof.
  intros E Hoff. unfold run_scrollLock, scrollLockEffect.
  rewrite E, Hoff. by destruct w.
Qed.

Lemma runEffects_off ids w :
  none_lock w → runEffects ids w = w.
Proof.
  intros Hnone. induction ids as [|i ids IH]; [done |].
  rewrite runEffects_cons.
  destruct (w_modals w !! i) as [inst|] eqn:E.
  - by rewrite (run_scrollLock_off i inst w E (Hnone i inst E)).
  - unfold run_scrollLock. by rewrite E.
Qed.

Lemma step_never_locks w e :
  neverLocks e = true → none_lock w →
  w_noScroll (step w e) = w_noScroll w ∧ none_lock (step w e).
Proof.
  intros He Hall.
  destruct e as [i root p visible|i visible|i p|i|cs]; simpl in *.
  4: { unfold unmountModal.
       destruct (w_modals w !! i) as [inst|] eqn:E; [| done].
       split; [by destruct (m_visible inst) |].
       intros j inst'. destruct (m_visible inst); simpl;
         rewrite lookup_delete_Some; intros [_ Hj]; by apply (Hall j). }
  4: { assert (Hall' : none_lock (renderChanges cs w).1)
         by exact (renderChanges_props (λ p, lockScroll_value p = false)
                     cs w Hall).
       unfold commitVisible. rewrite runEffects_off by done.
       split; [apply renderChanges_noScroll | done]. }
  - apply negb_true_iff in He.
    unfold mountModal. destruct (w_modals w !! i) eqn:E; [done |].
    rewrite (run_scrollLock_off i (mkInstance root p visible)).
    + split; [by destruct visible |].
      unfold none_lock. destruct visible; simpl;
        exact (none_lock_insert i (mkInstance root p _) w He Hall).
    + destruct visible; simpl; by rewrite lookup_insert_eq.
    + done.
  - unfold setContentVisible.
    destruct (w_modals w !! i) as [inst|] eqn:E; [| done].
    destruct (Bool.eqb visible (m_visible inst)); [done |].
    pose proof (Hall i inst E) as Hoff.
    rewrite (run_scrollLock_off i
               (mkInstance (m_root inst) (m_props inst) visible)).
    + split; [by destruct visible |].
      unfold none_lock. destruct visible; simpl;
        exact (none_lock_insert i (mkInstance _ _ _) w Hoff Hall).
    + destruct visible; simpl; by rewrite lookup_insert_eq.
    + done.
  - apply negb_true_iff in He.
    unfold setProps. destruct (w_modals w !! i) as [inst|] eqn:E; [| done].
    rewrite He, (Hall i inst E). simpl. split; [done |].
    exact (none_lock_insert i (mkInstance _ p _) w He Hall).
Qed.

(** X12. Modals with [lockScroll] off never touch the no-scroll marker:
    whatever they do, the marker on the body stays as it was found, present
    or absent. *)
Theorem non_locking_modals_leave_marker (b : bool) (es : list Event) :
  forallb neverLocks es = true →
  w_noScroll (run (mkWorld [] b ∅) es) = b.
Proof.
  intros Hes.
  change b with (w_noScroll (mkWorld [] b ∅)) at 2.
  assert (Hall : none_lock (mkWorld [] b ∅)).
  { intros i inst E. simpl in E. by rewrite lookup_empty in E. }
  revert Hes Hall. generalize (mkWorld [] b ∅).
  induction es as [|e es IH]; intros w Hes Hall; [done |].
  simpl in Hes. apply andb_true_iff in Hes as [He Hes].
  destruct (step_never_locks w e He Hall) as [Hm Hall'].
  simpl. unfold run in IH. rewrite IH by done. exact Hm.
Qed.

(** X13. [onEscape] looks at the last entry of the overlay query only: with
    Escape closing on it calls [onClose] exactly when that entry is the
    instance's own root, whatever lies below it; for an empty query result
    it never does. *)
Theorem escape_decided_by_last_overlay (closeOnEsc : bool)
    (below : list Element) (top : Element) (ref : option Element) :
  onEscape closeOnEsc (below ++ [top]) ref
  = closeOnEsc && bool_decide (ref = Some top)
  ∧ onEscape closeOnEsc [] ref = false.
Proof.
  split.
  - unfold onEscape. destruct closeOnEsc; [| done].
    rewrite (item_last (below ++ [top]) top (last_snoc _ _)). simpl.
    destruct ref as [x|]; simpl.
    + destruct (Nat.eqb_spec top x) as [->|Hne].
      * by rewrite bool_decide_eq_true_2.
      * rewrite bool_decide_eq_false_2; [done | congruence].
    + done.
  - unfold onEscape. by destruct closeOnEsc.
Qed.

End ModalGeneral.

(** Three modals, the third being mounted visible: the marker keeps the
    value it had. *)
Lemma marker_frozen_with_two_overlays_witness :
  let p := Modal.mkProps true None None None None None None None None in
  let w := Modal.two_stacked in
  let e := Modal.MountModal 2%nat 12%nat p true in
  (2 ≤ length (Modal.w_overlays (Modal.step w e)))%nat
  ∧ Modal.w_noScroll (Modal.step w e) = Modal.w_noScroll w.
Proof.
  intros p w e. split; [vm_compute; lia |].
  apply (marker_frozen_with_two_overlays w e). vm_compute. lia.
Defined.

(** A non-locking Modal opened and closed on a page that already carries
    the marker: the marker stays. *)
Lemma non_locking_modals_leave_marker_witness :
  let p := Modal.mkProps true None (Some false) None None None None None
             None in
  let es := [Modal.MountModal 0%nat 10%nat p true;
             Modal.SetContentVisible 0%nat false] in
  forallb ModalTraces.neverLocks es = true
  ∧ Modal.w_noScroll (Modal.run (Modal.mkWorld [] true ∅) es) = true.
Proof.
  intros p es. split; [reflexivity |].
  apply (non_locking_modals_leave_marker true es). reflexivity.
Defined.

(** ** The rendered tree *)

Section Render.

Import ModalRender.

(** X14. The tree the Modal renders holds its close button exactly once
    when [showCloseButton] is on (the default) and not at all when it is
    off, with or without a title; nothing is rendered while the content is
    not visible.  (Close buttons that the caller puts into the title or the
    children are counted separately.) *)
Theorem close_button_rendered_once (p : ViewProps) (visible : bool)
    (children : list Node) :
  count_rendered "ModalCloseButton" (render p visible children)
  = if visible then
      ((if default true (showCloseButton p) then 1 else 0)
       + count_all "ModalCloseButton" (as_children (title p))
       + count_all "ModalCloseButton" children)%nat
    else 0%nat.
Proof.
  unfold render. destruct visible; [| done].
  destruct p as [t close backdrop]. unfold count_all. simpl.
  destruct (default true backdrop), (default true close);
    destruct t as [|txt|n]; simpl;
    try destruct (String.eqb txt ""); simpl;
    rewrite ?app_nil_r; simpl; lia.
Qed.

End Render.
